(** * The Sudoku engine of [src/context/SudokuContext.jsx]

    A shallow embedding of the puzzle engine (constraint checker,
    solution counter, puzzle digger, violation detector, hint selector
    and the store operations built on them), followed by the properties
    the specification states about it. *)

From Stdlib Require Import ZArith Lia.
From stdpp Require Import gmap strings list sorting.

Local Open Scope Z_scope.
Local Open Scope nat_scope.

(** ** Outcomes of a run

    A JavaScript call either returns, or raises.  [TypeError] is the
    exception raised when a property of [undefined] is read or written
    ([board[r][c]] with no row [r]).  [Grows] marks an assignment past the
    end of a row: JavaScript would lengthen the row and leave holes, which
    the dense rows used here cannot hold, so the run is cut at that point.
    [OutOfFuel] is the cut of a recursion whose depth bound was used up. *)

Inductive outcome (A : Type) : Type :=
  | Done (a : A)
  | TypeError
  | Grows
  | OutOfFuel.

Arguments Done {A} a.
Arguments TypeError {A}.
Arguments Grows {A}.
Arguments OutOfFuel {A}.

Definition outcome_bind {A B : Type} (f : A → outcome B) (m : outcome A) : outcome B :=
  match m with
  | Done a => f a
  | TypeError => TypeError
  | Grows => Grows
  | OutOfFuel => OutOfFuel
  end.

#[global] Instance outcome_mbind : MBind outcome := @outcome_bind.
#[global] Instance outcome_mret : MRet outcome := @Done.

(** ** Grids

    A grid is an array of rows of integers; [0] is the empty cell. *)

Abbreviation grid := (list (list Z)).

(** [board[r][c]]: a missing row raises, a missing column reads
    [undefined], written [None]. *)
Definition get (board : grid) (r c : nat) : outcome (option Z) :=
  match board !! r with
  | None => TypeError
  | Some row => Done (row !! c)
  end.

(** [v === n] for a value just read and an integer [n]. *)
Definition holds (v : option Z) (n : Z) : bool :=
  match v with
  | Some z => Z.eqb z n
  | None => false
  end.

(** [board[r][c] = v].  A missing row raises.  Past the end of a row
    JavaScript lengthens the row, with holes up to [c], and goes on: a
    matrix of another shape, which [Grows] reports.  No call of the program
    on [size] × [size] boards gets there ([put_inside]); the statements
    about single calls below are about such boards. *)
Definition put (board : grid) (r c : nat) (v : Z) : outcome grid :=
  match board !! r with
  | None => TypeError
  | Some row =>
      if decide (c < length row)
      then Done (<[r := <[c := v]> row]> board)
      else Grows
  end.

(** The content of a cell, for stating properties. *)
Definition cell (board : grid) (r c : nat) : option Z :=
  board !! r ≫= (λ row, row !! c).

Definition SOLUTION_6 : grid :=
  [ [1; 2; 3; 4; 5; 6];
    [4; 5; 6; 1; 2; 3];
    [2; 3; 4; 5; 6; 1];
    [5; 6; 1; 2; 3; 4];
    [3; 4; 5; 6; 1; 2];
    [6; 1; 2; 3; 4; 5] ]%Z.

Definition SOLUTION_9 : grid :=
  [ [1; 2; 3; 4; 5; 6; 7; 8; 9];
    [4; 5; 6; 7; 8; 9; 1; 2; 3];
    [7; 8; 9; 1; 2; 3; 4; 5; 6];
    [2; 3; 4; 5; 6; 7; 8; 9; 1];
    [5; 6; 7; 8; 9; 1; 2; 3; 4];
    [8; 9; 1; 2; 3; 4; 5; 6; 7];
    [3; 4; 5; 6; 7; 8; 9; 1; 2];
    [6; 7; 8; 9; 1; 2; 3; 4; 5];
    [9; 1; 2; 3; 4; 5; 6; 7; 8] ]%Z.

(** [array.map((row) => [...row])]: a fresh copy, equal as a value. *)
Definition clone2D (array : grid) : grid := (λ row : list Z, row) <$> array.

(** [(blockRows, blockCols)]. *)
Definition getBlockDimensions (size : nat) : nat * nat :=
  if decide (size = 6) then (2, 3) else (3, 3).

(** ** Constraint checker *)

(** The cells visited by [for (let c = 0; c < size; c++) board[row][c]],
    by its column twin, and by the two nested loops over a block. *)
Definition row_cells (row size : nat) : list (nat * nat) :=
  (λ c, (row, c)) <$> seq 0 size.

Definition col_cells (col size : nat) : list (nat * nat) :=
  (λ r, (r, col)) <$> seq 0 size.

Definition block_cells (startRow startCol blockRows blockCols : nat) : list (nat * nat) :=
  r ← seq startRow blockRows; (λ c, (r, c)) <$> seq startCol blockCols.

(** One loop of [isSafe]: read the cells in order and stop at the first
    one that holds [num]. *)
Fixpoint scan (board : grid) (num : Z) (cells : list (nat * nat)) : outcome bool :=
  match cells with
  | [] => Done false
  | (r, c) :: rest =>
      v ← get board r c;
      if holds v num then Done true else scan board num rest
  end.

Definition isSafe (board : grid) (row col : nat) (num : Z) (size : nat) : outcome bool :=
  let '(blockRows, blockCols) := getBlockDimensions size in
  inRow ← scan board num (row_cells row size);
  if inRow : bool then Done false else
  inCol ← scan board num (col_cells col size);
  if inCol : bool then Done false else
  let startRow := row - row mod blockRows in
  let startCol := col - col mod blockCols in
  inBlock ← scan board num (block_cells startRow startCol blockRows blockCols);
  Done (negb inBlock).

(** ** Solution counter *)

(** The [outer:] loops of [backtrack]: the first cell, in row-major order,
    that holds [0]. *)
Fixpoint firstEmpty (board : grid) (cells : list (nat * nat)) : outcome (option (nat * nat)) :=
  match cells with
  | [] => Done None
  | (r, c) :: rest =>
      v ← get board r c;
      if holds v 0 then Done (Some (r, c)) else firstEmpty board rest
  end.

Definition all_cells (size : nat) : list (nat * nat) :=
  r ← seq 0 size; (λ c, (r, c)) <$> seq 0 size.

(** The candidate loop of [backtrack], with [rec] standing for the
    recursive call.  The state is the board and the counter [count] that
    the closure shares. *)
Fixpoint tryCandidates (rec : grid * nat → outcome (grid * nat))
    (size limit row col : nat) (nums : list nat) (st : grid * nat) : outcome (grid * nat) :=
  match nums with
  | [] => Done st
  | num :: rest =>
      safe ← isSafe st.1 row col (Z.of_nat num) size;
      if safe : bool then
        board ← put st.1 row col (Z.of_nat num);
        st' ← rec (board, st.2);
        board ← put st'.1 row col 0%Z;
        if decide (limit ≤ st'.2) then Done (board, st'.2)
        else tryCandidates rec size limit row col rest (board, st'.2)
      else tryCandidates rec size limit row col rest st
  end.

Fixpoint backtrack (fuel size limit : nat) (st : grid * nat) : outcome (grid * nat) :=
  match fuel with
  | 0 => OutOfFuel
  | S fuel =>
      if decide (limit ≤ st.2) then Done st else
      found ← firstEmpty st.1 (all_cells size);
      match found with
      | None => Done (st.1, S st.2)
      | Some (row, col) =>
          tryCandidates (backtrack fuel size limit) size limit row col (seq 1 size) st
      end
  end.

(** The number of cells holding [0]: each nested call of [backtrack] runs
    on a board with one such cell fewer. *)
Definition zeros (board : grid) : nat :=
  length (filter (λ v : Z, v = 0%Z) (concat board)).

(** Returns the count and the final content of the array it was given. *)
Definition countSolutions (board : grid) (size limit : nat) : outcome (nat * grid) :=
  st ← backtrack (S (zeros board)) size limit (board, 0);
  Done (st.2, st.1).

(** ** Puzzle digger *)

Section Digger.

(** [random i] is the value of [Math.floor(Math.random() * (i + 1))]
    drawn at step [i] of the shuffle.  [Math.random()] lies in [[0, 1)],
    so the draw is at most [i].  The properties below hold for every
    function [random], those that respect this bound among them. *)
Variable random : nat → nat.

(** [[indices[i], indices[j]] = [indices[j], indices[i]]], for [i] and
    [j] inside the array, as the draws always are; for an index outside
    it, which no draw produces, the array is left as it is. *)
Definition swap (indices : list nat) (i j : nat) : list nat :=
  match indices !! i, indices !! j with
  | Some a, Some b => <[j := a]> (<[i := b]> indices)
  | _, _ => indices
  end.

(** Fisher–Yates: [for (let i = indices.length - 1; i > 0; i--)]. *)
Definition shuffle (indices : list nat) : list nat :=
  foldl (λ acc i, swap acc i (random i)) indices
        (reverse (seq 1 (length indices - 1))).

(** The loop [for (const idx of indices)]; the state is the board and
    [removed].  When [backup] is [undefined] the assignment of [0] has
    already cut the run, so the value restored in that case is never
    used. *)
Fixpoint dig (size : nat) (maxToRemove : Z) (indices : list nat)
    (st : grid * nat) : outcome (grid * nat) :=
  match indices with
  | [] => Done st
  | idx :: rest =>
      if decide (maxToRemove ≤ Z.of_nat st.2)%Z then Done st else
      let r := idx / size in
      let c := idx mod size in
      backup ← get st.1 r c;
      if holds backup 0 then dig size maxToRemove rest st else
      board ← put st.1 r c 0%Z;
      let temp := clone2D board in
      solutions ← countSolutions temp size 2;
      if decide (solutions.1 ≠ 1) then
        board ← put board r c (default 0%Z backup);
        dig size maxToRemove rest (board, st.2)
      else dig size maxToRemove rest (board, S st.2)
  end.

Definition makeUniquePuzzleFromSolution (solution : grid) (cluesCount : nat) : outcome grid :=
  let size := length solution in
  let totalCells := size * size in
  let board := clone2D solution in
  let indices := shuffle (seq 0 totalCells) in
  let maxToRemove := (Z.of_nat totalCells - Z.of_nat cluesCount)%Z in
  st ← dig size maxToRemove indices (board, 0);
  Done st.1.

End Digger.

(** ** Violation detector *)

(** The map returned by [computeErrors] has the keys ["r-c"]; a key is
    kept here as the pair [(r, c)] it spells.  The buckets [seen] are keyed
    by the value read, [None] being the key ["undefined"]. *)

(** [if (v === 0) continue; if (!seen[v]) seen[v] = []; seen[v].push({r, c})] *)
Definition bucket (board : grid) (seen : gmap (option Z) (list (nat * nat)))
    (rc : nat * nat) : outcome (gmap (option Z) (list (nat * nat))) :=
  v ← get board rc.1 rc.2;
  if holds v 0 then Done seen
  else Done (<[v := default [] (seen !! v) ++ [rc]]> seen).

Fixpoint fill (board : grid) (seen : gmap (option Z) (list (nat * nat)))
    (cells : list (nat * nat)) : outcome (gmap (option Z) (list (nat * nat))) :=
  match cells with
  | [] => Done seen
  | rc :: rest => seen ← bucket board seen rc; fill board seen rest
  end.

(** [Object.values(seen).forEach((cells) => { if (cells.length > 1)
    cells.forEach(({ r, c }) => markError(r, c)); })] *)
Definition markErrors (errors : gset (nat * nat))
    (seen : gmap (option Z) (list (nat * nat))) : gset (nat * nat) :=
  foldl (λ errors cells,
           if decide (1 < length cells) then errors ∪ list_to_set cells else errors)
        errors (map_to_list seen).*2.

(** One constraint group after the other, each with fresh buckets. *)
Fixpoint checkGroups (board : grid) (errors : gset (nat * nat))
    (groups : list (list (nat * nat))) : outcome (gset (nat * nat)) :=
  match groups with
  | [] => Done errors
  | cells :: rest =>
      seen ← fill board ∅ cells;
      checkGroups board (markErrors errors seen) rest
  end.

(** The values of [for (let b = 0; b < size; b += step)]. *)
Definition origins (size step : nat) : list nat :=
  (λ k, k * step) <$> seq 0 ((size + step - 1) / step).

Definition computeErrors (board : grid) (size : nat) : outcome (gset (nat * nat)) :=
  let '(blockRows, blockCols) := getBlockDimensions size in
  errors ← checkGroups board ∅ ((λ r, row_cells r size) <$> seq 0 size);
  errors ← checkGroups board errors ((λ c, col_cells c size) <$> seq 0 size);
  checkGroups board errors
    (br ← origins size blockRows;
     (λ bc, block_cells br bc blockRows blockCols) <$> origins size blockCols).

(** ** The store *)

Inductive Status : Type := Idle | Playing | Completed.

#[global] Instance Status_eq_dec : EqDecision Status.
Proof. solve_decision. Defined.

(** The state held by [SudokuProvider].  [size] is [null] before the first
    game; [null] and [0] behave alike wherever [size] is used ([!size],
    [r < size], [num > size]), so [0] stands for both. *)
Record state : Type := State {
  mode : option string;
  size : nat;
  solutionBoard : grid;
  initialBoard : grid;
  board : grid;
  status : Status;
  errors : gset (nat * nat);
  elapsed : nat;
  hintCell : option (nat * nat)
}.

(** The third argument of [updateCell]: the empty string, a value that
    [Number] turns into the integer [z], or a value that [Number] turns
    into something else (a fraction, [NaN], an infinity). *)
Inductive raw : Type :=
  | RawEmpty
  | RawInteger (z : Z)
  | RawOther.

Definition startNewGame (random : nat → nat) (s : state) (newMode : string) : outcome state :=
  let isEasy := bool_decide (newMode = "easy"%string) in
  let solution := if isEasy then SOLUTION_6 else SOLUTION_9 in
  let clues := if isEasy then 18 else 30 in
  puzzle ← makeUniquePuzzleFromSolution random solution clues;
  Done {| mode := Some newMode;
          size := if isEasy then 6 else 9;
          solutionBoard := clone2D solution;
          initialBoard := clone2D puzzle;
          board := clone2D puzzle;
          status := Playing;
          errors := ∅;
          elapsed := 0;
          hintCell := None |}.

Definition resetGame (s : state) : state :=
  if decide (initialBoard s = []) then s else
  {| mode := mode s;
     size := size s;
     solutionBoard := solutionBoard s;
     initialBoard := initialBoard s;
     board := clone2D (initialBoard s);
     status := Playing;
     errors := ∅;
     elapsed := 0;
     hintCell := None |}.

(** [next.some((r) => r.includes(0))] *)
Definition hasEmpty (next : grid) : bool :=
  existsb (λ r, existsb (λ v, Z.eqb v 0) r) next.

(** The tail of [updateCell], once [num] is known. *)
Definition applyEdit (s : state) (row col : nat) (num : Z) : outcome state :=
  next ← put (clone2D (board s)) row col num;
  nextErrors ← computeErrors next (size s);
  Done {| mode := mode s;
          size := size s;
          solutionBoard := solutionBoard s;
          initialBoard := initialBoard s;
          board := next;
          status := if negb (hasEmpty next) && bool_decide (nextErrors = ∅)
                    then Completed else Playing;
          errors := nextErrors;
          elapsed := elapsed s;
          hintCell := None |}.

Definition updateCell (s : state) (row col : nat) (value : raw) : outcome state :=
  if decide (status s ≠ Playing) then Done s else
  if decide (board s = []) then Done s else
  clue ← get (initialBoard s) row col;
  if negb (holds clue 0) then Done s else
  match value with
  | RawEmpty => applyEdit s row col 0%Z
  | RawInteger num =>
      if decide (num < 1 ∨ Z.of_nat (size s) < num)%Z then Done s
      else applyEdit s row col num
  | RawOther => Done s
  end.

(** ** Hint selector *)

(** The loop [for (let v = 1; v <= size; v++)] of [giveHint]; [found] is
    the array [candidates]. *)
Fixpoint collectCandidates (board : grid) (size r c : nat) (vs : list nat)
    (found : list nat) : outcome (list nat) :=
  match vs with
  | [] => Done found
  | v :: rest =>
      temp ← put (clone2D board) r c (Z.of_nat v);
      tempErrors ← computeErrors temp size;
      let found := if decide ((r, c) ∈ tempErrors) then found else found ++ [v] in
      if decide (1 < length found) then Done found
      else collectCandidates board size r c rest found
  end.

Fixpoint hintScan (board : grid) (size : nat) (cells : list (nat * nat)) : outcome (option (nat * nat)) :=
  match cells with
  | [] => Done None
  | (r, c) :: rest =>
      v ← get board r c;
      if negb (holds v 0) then hintScan board size rest else
      candidates ← collectCandidates board size r c (seq 1 size) [];
      if decide (length candidates = 1) then Done (Some (r, c))
      else hintScan board size rest
  end.

Definition giveHint (s : state) : outcome state :=
  if decide (status s ≠ Playing) then Done s else
  if decide (board s = []) then Done s else
  if decide (size s = 0) then Done s else
  target ← hintScan (board s) (size s) (all_cells (size s));
  match target with
  | None => Done s
  | Some rc =>
      Done {| mode := mode s;
              size := size s;
              solutionBoard := solutionBoard s;
              initialBoard := initialBoard s;
              board := board s;
              status := status s;
              errors := errors s;
              elapsed := elapsed s;
              hintCell := Some rc |}
  end.

(** * Properties *)

(** ** Vocabulary of the statements *)

(** The two sizes the engine supports. *)
Definition supported (size : nat) : Prop := size = 6 ∨ size = 9.

(** A [size] × [size] matrix. *)
Definition square (size : nat) (g : grid) : Prop :=
  length g = size ∧ Forall (λ row, length row = size) g.

(** A cell of the [size] × [size] area. *)
Definition inside (size : nat) (a : nat * nat) : Prop := a.1 < size ∧ a.2 < size.

(** The boxes as the specification fixes them, whatever the code looks
    up: 2 × 3 boxes (2 rows, 3 columns) in a 6 × 6 grid, 3 × 3 boxes in a
    9 × 9 grid.  No other size is supported; [(1, 1)] stands there. *)
Definition boxShape (size : nat) : nat * nat :=
  match size with
  | 6 => (2, 3)
  | 9 => (3, 3)
  | _ => (1, 1)
  end.

(** The box of a cell is named by its origin,
    [(row - row % blockRows, col - col % blockCols)], for the box shape of
    the specification. *)
Definition boxOrigin (size : nat) (a : nat * nat) : nat * nat :=
  (a.1 - a.1 mod (boxShape size).1,
   a.2 - a.2 mod (boxShape size).2).

(** Two cells share a row, a column or a box. *)
Definition related (size : nat) (a b : nat * nat) : Prop :=
  a.1 = b.1 ∨ a.2 = b.2 ∨ boxOrigin size a = boxOrigin size b.

(** The value of a cell given as a pair. *)
Definition at_ (g : grid) (a : nat * nat) : option Z := cell g a.1 a.2.

(** A cell of the matrix that is not empty while another cell of its row,
    its column or its box holds the same value. *)
Definition violates (size : nat) (g : grid) (x : nat * nat) : Prop :=
  inside size x ∧ at_ g x ≠ Some 0%Z ∧
  ∃ y, inside size y ∧ y ≠ x ∧ related size x y ∧ at_ g y = at_ g x.

(** The entries of a grid lie in [[0, size]]. *)
Definition entries (size : nat) (g : grid) : Prop :=
  Forall (Forall (λ v, (0 ≤ v ≤ Z.of_nat size)%Z)) g.

(** No cell is in conflict: the nonzero cells hold no duplicate in a row,
    a column or a box. *)
Definition consistent (size : nat) (g : grid) : Prop := ∀ x, ¬ violates size g x.

(** Every cell of the matrix holds a value of [[1, size]]. *)
Definition filled (size : nat) (h : grid) : Prop :=
  ∀ x, inside size x → ∃ v, at_ h x = Some v ∧ (1 ≤ v ≤ Z.of_nat size)%Z.

(** [h] keeps every nonzero cell of [g]. *)
Definition extends (g h : grid) : Prop :=
  ∀ x v, at_ g x = Some v → v ≠ 0%Z → at_ h x = Some v.

(** [h] is a completion of [g]: a full matrix without conflicts that keeps
    the clues of [g]. *)
Definition is_completion (size : nat) (g h : grid) : Prop :=
  square size h ∧ filled size h ∧ consistent size h ∧ extends g h.

(** [g] has exactly [n] distinct completions. *)
Definition solution_count (size : nat) (g : grid) (n : nat) : Prop :=
  ∃ L, NoDup L ∧ length L = n ∧ ∀ h, h ∈ L ↔ is_completion size g h.

#[global] Instance supported_dec size : Decision (supported size).
Proof. unfold supported. apply _. Defined.

#[global] Instance square_dec size g : Decision (square size g).
Proof. unfold square. apply _. Defined.

Ltac divmod x k :=
  pose proof (Nat.div_mod_eq x k);
  pose proof (Nat.mod_upper_bound x k ltac:(lia)).

Ltac invert H := inversion H; subst; clear H.

Ltac list_cases H :=
  repeat (rewrite elem_of_cons in H); rewrite elem_of_nil in H.

(** The bucket of a value, empty when the value has no bucket yet. *)
Definition bucket_of (seen : gmap (option Z) (list (nat * nat))) (k : option Z) : list (nat * nat) :=
  default [] (seen !! k).

(** The cells of a group that hold [k]. *)
Definition members (g : grid) (k : option Z) (cells : list (nat * nat)) : list (nat * nat) :=
  filter (λ a, at_ g a = k) cells.

(** A cell of a group that is not empty and whose value another cell of
    the group holds too. *)
Definition conflict (g : grid) (cells : list (nat * nat)) (x : nat * nat) : Prop :=
  x ∈ cells ∧ at_ g x ≠ Some 0%Z ∧ ∃ y, y ∈ cells ∧ y ≠ x ∧ at_ g y = at_ g x.

(** The groups [computeErrors] walks through. *)
Definition row_groups (size : nat) : list (list (nat * nat)) :=
  (λ r, row_cells r size) <$> seq 0 size.

Definition col_groups (size : nat) : list (list (nat * nat)) :=
  (λ c, col_cells c size) <$> seq 0 size.

Definition block_groups (size : nat) : list (list (nat * nat)) :=
  br ← origins size (getBlockDimensions size).1;
  (λ bc, block_cells br bc (getBlockDimensions size).1 (getBlockDimensions size).2)
    <$> origins size (getBlockDimensions size).2.

Definition zero_one (v : Z) : nat := if decide (v = 0%Z) then 1 else 0.

(** What a call [run] of [backtrack] has to do on the matrix [g] with the
    counter at [count]: return with the board as it was, and with the
    counter raised by the number of completions, capped at [limit]. *)
Definition counts (size limit : nat) (run : grid * nat → outcome (grid * nat))
    (g : grid) (count : nat) : Prop :=
  ∃ n, run (g, count) = Done (g, n) ∧
    (entries size g → consistent size g → count ≤ limit →
     ∀ L, NoDup L → (∀ h, h ∈ L ↔ is_completion size g h) →
          n = Nat.min (count + length L) limit).

(** A solution: a full matrix without conflicts. *)
Definition solution (size : nat) (g : grid) : Prop :=
  square size g ∧ filled size g ∧ consistent size g.

(** Row-major order on cells. *)
Definition precedes (a b : nat * nat) : Prop :=
  a.1 < b.1 ∨ (a.1 = b.1 ∧ a.2 < b.2).

(** [v] written at [a] leaves [a] out of the violation set. *)
Definition fitsb (size : nat) (g : grid) (a : nat * nat) (v : nat) : bool :=
  match put g a.1 a.2 (Z.of_nat v) with
  | Done g' =>
      match computeErrors g' size with
      | Done errs => bool_decide (a ∉ errs)
      | _ => false
      end
  | _ => false
  end.

Definition fits (size : nat) (g : grid) (a : nat * nat) (v : nat) : Prop :=
  ∃ g' errs, put g a.1 a.2 (Z.of_nat v) = Done g' ∧
             computeErrors g' size = Done errs ∧ a ∉ errs.

(** An empty cell with exactly one value of [[1, size]] that fits. *)
Definition single_candidate (size : nat) (g : grid) (a : nat * nat) : Prop :=
  at_ g a = Some 0%Z ∧
  ∃ v, 1 ≤ v ≤ size ∧ fits size g a v ∧
       ∀ w, 1 ≤ w ≤ size → fits size g a w → w = v.

(** A state whose boards are matrices of a supported size. *)
Definition well_formed (s : state) : Prop :=
  supported (size s) ∧ square (size s) (initialBoard s) ∧ square (size s) (board s).

(** The number an accepted input stands for: the empty string clears the
    cell, an integer of [[1, size]] is written, anything else is refused. *)
Definition parse (size : nat) (value : raw) : option Z :=
  match value with
  | RawEmpty => Some 0%Z
  | RawInteger z => if decide (1 ≤ z ≤ Z.of_nat size)%Z then Some z else None
  | RawOther => None
  end.

(** One call of [updateCell] seen from the store: a call that raises
    leaves the state as it was, since every [set...] call comes after the
    last statement that can raise. *)
Definition edit (s : state) (e : nat * nat * raw) : state :=
  match updateCell s e.1.1 e.1.2 e.2 with
  | Done s' => s'
  | _ => s
  end.

(** A 6 × 6 puzzle used to try the statements on: the grid dug from
    [SOLUTION_6] when every draw of the shuffle is [0]. *)
Definition PUZZLE_6 : grid :=
  [ [1; 0; 0; 0; 0; 0];
    [0; 0; 0; 0; 2; 3];
    [0; 0; 0; 0; 0; 0];
    [0; 0; 0; 2; 3; 4];
    [3; 4; 5; 6; 1; 2];
    [6; 1; 2; 3; 4; 5] ]%Z.

(** The store before any game, and the game that [startNewGame] builds in
    mode ["easy"] when every draw of the shuffle is [0]. *)
Definition IDLE : state :=
  {| mode := None; size := 0; solutionBoard := []; initialBoard := []; board := [];
     status := Idle; errors := ∅; elapsed := 0; hintCell := None |}.

Definition GAME_6 : state :=
  {| mode := Some "easy"%string; size := 6; solutionBoard := SOLUTION_6;
     initialBoard := PUZZLE_6; board := PUZZLE_6;
     status := Playing; errors := ∅; elapsed := 0; hintCell := None |}.

(** [g'] is [g] with some cells emptied. *)
Definition dug (g' g : grid) : Prop :=
  ∀ x, at_ g' x = Some 0%Z ∨ at_ g' x = at_ g x.

(** Emptying the cell [x] of [g] leaves more than one solution: two
    different full matrices without conflicts keep every clue of [g]
    other than the one at [x]. *)
Definition stuck (size : nat) (g : grid) (x : nat * nat) : Prop :=
  ∃ h1 h2, h1 ≠ h2 ∧
    ∀ h, h = h1 ∨ h = h2 →
      square size h ∧ filled size h ∧ consistent size h ∧
      ∀ y v, y ≠ x → at_ g y = Some v → v ≠ 0%Z → at_ h y = Some v.

(** The grid dug from [SOLUTION_6] when every draw of the shuffle is [0]
    and no clue has to be kept: 26 cells are emptied. *)
Definition PUZZLE_6_DEEP : grid :=
  [ [1; 0; 0; 0; 0; 0];
    [0; 0; 0; 0; 2; 3];
    [0; 0; 0; 0; 0; 0];
    [0; 0; 0; 2; 3; 4];
    [0; 0; 0; 0; 0; 0];
    [0; 0; 2; 3; 4; 5] ]%Z.

(** What the player can do once a game has started: edit a cell, ask for
    a hint, restart the puzzle.  As for [edit], a call of [giveHint] that
    raises leaves the state as it was. *)
Inductive action : Type :=
  | Edit (row col : nat) (value : raw)
  | Hint
  | Reset.

Definition act (s : state) (a : action) : state :=
  match a with
  | Edit row col value => edit s (row, col, value)
  | Hint => match giveHint s with Done s' => s' | _ => s end
  | Reset => resetGame s
  end.

(** A game of size [size0] on the puzzle [puzzle] dug from [sol]. *)
Definition setting (size0 : nat) (sol puzzle : grid) : Prop :=
  supported size0 ∧ solution size0 sol ∧ square size0 puzzle ∧
  dug puzzle sol ∧ puzzle ≠ sol ∧ ∀ h, is_completion size0 puzzle h ↔ h = sol.

(** What holds of the state all along such a game. *)
Definition game_inv (size0 : nat) (mode0 : option string) (sol puzzle : grid)
    (s : state) : Prop :=
  mode s = mode0 ∧ size s = size0 ∧ solutionBoard s = sol ∧ initialBoard s = puzzle ∧
  square size0 (board s) ∧ entries size0 (board s) ∧ extends puzzle (board s) ∧
  computeErrors (board s) size0 = Done (errors s) ∧
  status s ≠ Idle ∧ (status s = Completed ↔ board s = sol).

(** A full 6 × 6 grid with two [1] in its first row. *)
Definition CLASH_6 : grid :=
  [ [1; 1; 3; 4; 5; 6];
    [4; 5; 6; 1; 2; 3];
    [2; 3; 4; 5; 6; 1];
    [5; 6; 1; 2; 3; 4];
    [3; 4; 5; 6; 1; 2];
    [6; 1; 2; 3; 4; 5] ]%Z.

(** [isSafe] and [computeErrors] as steps on the store: what the call
    returns, and the board after the call.  Their bodies (lines 42-65 and
    155-210) assign to no cell of [board] and call nothing that could, so
    the board after the call is the board before it. *)
Definition isSafe_step (board : grid) (row col : nat) (num : Z) (size : nat) :
    outcome (bool * grid) :=
  safe ← isSafe board row col num size;
  Done (safe, board).

Definition computeErrors_step (board : grid) (size : nat) :
    outcome (gset (nat * nat) * grid) :=
  errors ← computeErrors board size;
  Done (errors, board).

(** A 6 × 6 board with [1] at [(0, 3)] and one duplicate, the [5] at
    [(2, 0)] and [(3, 1)]: two cells of one box, in different rows and
    columns. *)
Definition BOXED_6 : grid :=
  [ [0; 0; 0; 1; 0; 0];
    [0; 0; 0; 0; 0; 0];
    [5; 0; 0; 0; 0; 0];
    [0; 5; 0; 0; 0; 0];
    [0; 0; 0; 0; 0; 0];
    [0; 0; 0; 0; 0; 0] ]%Z.

(** ** Reading and writing cells *)

Lemma bind_Done {A B : Type} (m : outcome A) (f : A → outcome B) (b : B) :
  m ≫= f = Done b ↔ ∃ a, m = Done a ∧ f a = Done b.
Proof.
  destruct m; simpl; split; try (intros [a [E _]]; discriminate); try discriminate.
  - eauto.
  - intros [a' [E H]]. by invert E.
Qed.

Lemma clone2D_id (g : grid) : clone2D g = g.
Proof. unfold clone2D. apply list_fmap_id. Qed.

Lemma get_cell (g : grid) (r c : nat) :
  r < length g → get g r c = Done (cell g r c).
Proof.
  intros Hr. unfold get, cell.
  destruct (lookup_lt_is_Some_2 g r Hr) as [row ->]. done.
Qed.

Lemma get_Done (g : grid) (r c : nat) (v : option Z) :
  get g r c = Done v → r < length g ∧ cell g r c = v.
Proof.
  unfold get, cell. destruct (g !! r) as [row|] eqn:E; [|done].
  intros [= <-]. split; [by eapply lookup_lt_Some|done].
Qed.

Lemma square_cell (size : nat) (g : grid) (r c : nat) :
  square size g → r < size → c < size → ∃ v, cell g r c = Some v.
Proof.
  intros [Hl Hrows] Hr Hc. unfold cell.
  destruct (lookup_lt_is_Some_2 g r ltac:(lia)) as [row Hrow]. rewrite Hrow. simpl.
  apply lookup_lt_is_Some_2.
  rewrite Forall_forall in Hrows. rewrite (Hrows row); [done|].
  by eapply list_elem_of_lookup_2.
Qed.

Lemma cell_Some_inside (size : nat) (g : grid) (r c : nat) (v : Z) :
  square size g → cell g r c = Some v → r < size ∧ c < size.
Proof.
  intros [Hl Hrows]. unfold cell.
  destruct (g !! r) as [row|] eqn:E; [|done]. simpl. intros Hc.
  apply lookup_lt_Some in Hc. pose proof (lookup_lt_Some _ _ _ E).
  rewrite Forall_forall in Hrows. rewrite (Hrows row) in Hc; [lia|].
  by eapply list_elem_of_lookup_2.
Qed.

Lemma holds_true (v : option Z) (n : Z) : holds v n = true ↔ v = Some n.
Proof.
  destruct v as [z|]; simpl; [|done].
  rewrite Z.eqb_eq. split; [by intros ->|by intros [= ->]].
Qed.

Lemma holds_false (v : option Z) (n : Z) : holds v n = false ↔ v ≠ Some n.
Proof. rewrite <- holds_true. by destruct (holds v n). Qed.

Lemma put_Done (g : grid) (r c : nat) (v : Z) (g' : grid) :
  put g r c v = Done g' →
  is_Some (cell g r c) ∧ length g' = length g ∧
  ∀ r' c', cell g' r' c' = if decide (r' = r ∧ c' = c) then Some v else cell g r' c'.
Proof.
  unfold put, cell. destruct (g !! r) as [row|] eqn:E; [|done].
  case_decide as Hc; [|done]. intros [= <-]. simpl.
  split; [by apply lookup_lt_is_Some_2|].
  split; [by rewrite length_insert|].
  intros r' c'. pose proof (lookup_lt_Some _ _ _ E).
  destruct (decide (r' = r)) as [->|Hne].
  - rewrite list_lookup_insert_eq by done. simpl.
    case_decide as Hd.
    + destruct Hd as [_ ->]. by rewrite list_lookup_insert_eq.
    + rewrite list_lookup_insert_ne by naive_solver. by rewrite E.
  - rewrite list_lookup_insert_ne by done.
    case_decide as Hd; [by destruct Hd|done].
Qed.

Lemma put_square (size : nat) (g : grid) (r c : nat) (v : Z) (g' : grid) :
  square size g → put g r c v = Done g' → square size g'.
Proof.
  intros [Hl Hrows]. unfold put. destruct (g !! r) as [row|] eqn:E; [|done].
  case_decide; [|done]. intros [= <-]. split; [by rewrite length_insert|].
  apply Forall_insert; [done|]. rewrite length_insert.
  rewrite Forall_forall in Hrows. apply Hrows. by eapply list_elem_of_lookup_2.
Qed.

Lemma put_inside (size : nat) (g : grid) (r c : nat) (v : Z) :
  square size g → r < size → c < size → ∃ g', put g r c v = Done g'.
Proof.
  intros [Hl Hrows] Hr Hc. unfold put.
  destruct (lookup_lt_is_Some_2 g r ltac:(lia)) as [row Hrow]. rewrite Hrow.
  rewrite Forall_forall in Hrows.
  rewrite decide_True; [eauto|].
  rewrite (Hrows row); [done|]. by eapply list_elem_of_lookup_2.
Qed.

(** Two matrices of one size with the same cells are the same matrix. *)
Lemma grid_ext (size : nat) (g h : grid) :
  square size g → square size h →
  (∀ r c, r < size → c < size → cell g r c = cell h r c) → g = h.
Proof.
  intros [Hg Hgr] [Hh Hhr] Hcells. apply list_eq. intros r.
  destruct (decide (r < size)) as [Hr|Hr].
  - destruct (lookup_lt_is_Some_2 g r ltac:(lia)) as [row Hrow].
    destruct (lookup_lt_is_Some_2 h r ltac:(lia)) as [row' Hrow'].
    rewrite Hrow, Hrow'. f_equal.
    rewrite Forall_forall in Hgr, Hhr.
    pose proof (Hgr row (list_elem_of_lookup_2 _ _ _ Hrow)) as L1.
    pose proof (Hhr row' (list_elem_of_lookup_2 _ _ _ Hrow')) as L2.
    apply list_eq. intros c.
    destruct (decide (c < size)) as [Hc|Hc].
    + specialize (Hcells r c Hr Hc). unfold cell in Hcells.
      by rewrite Hrow, Hrow' in Hcells.
    + rewrite !lookup_ge_None_2 by lia. done.
  - rewrite !lookup_ge_None_2 by lia. done.
Qed.

(** Writing [0] back over a placed value gives the board as it was. *)
Lemma put_undo (g g1 g2 : grid) (r c : nat) (v : Z) :
  cell g r c = Some 0%Z → put g r c v = Done g1 → put g1 r c 0%Z = Done g2 → g2 = g.
Proof.
  unfold cell, put. destruct (g !! r) as [row|] eqn:E; [|done]. simpl.
  intros Hc. case_decide; [|done]. intros [= <-].
  pose proof (lookup_lt_Some _ _ _ E).
  rewrite list_lookup_insert_eq by done. rewrite length_insert.
  case_decide; [|done]. intros [= <-].
  rewrite list_insert_insert_eq, list_insert_insert_eq.
  rewrite (list_insert_id row) by done. by apply list_insert_id.
Qed.

(** ** The cells of a row, a column and a block *)

Lemma elem_of_row_cells (row size : nat) (a : nat * nat) :
  a ∈ row_cells row size ↔ a.1 = row ∧ a.2 < size.
Proof.
  unfold row_cells. rewrite list_elem_of_fmap. setoid_rewrite elem_of_seq.
  destruct a as [r c]. simpl. split.
  - intros [x [[= -> ->] ?]]. lia.
  - intros [-> ?]. exists c. split; [done|lia].
Qed.

Lemma elem_of_col_cells (col size : nat) (a : nat * nat) :
  a ∈ col_cells col size ↔ a.1 < size ∧ a.2 = col.
Proof.
  unfold col_cells. rewrite list_elem_of_fmap. setoid_rewrite elem_of_seq.
  destruct a as [r c]. simpl. split.
  - intros [x [[= -> ->] ?]]. lia.
  - intros [? ->]. exists r. split; [done|lia].
Qed.

Lemma elem_of_block_cells (sr sc br bc : nat) (a : nat * nat) :
  a ∈ block_cells sr sc br bc ↔ (sr ≤ a.1 < sr + br) ∧ (sc ≤ a.2 < sc + bc).
Proof.
  unfold block_cells. rewrite list_elem_of_bind.
  setoid_rewrite list_elem_of_fmap. setoid_rewrite elem_of_seq.
  destruct a as [r c]. simpl. split.
  - intros [y [[x [[= -> ->] ?]] ?]]. lia.
  - intros [? ?]. exists r. split; [|lia]. exists c. split; [done|lia].
Qed.

Lemma elem_of_all_cells (size : nat) (a : nat * nat) :
  a ∈ all_cells size ↔ inside size a.
Proof.
  unfold all_cells, inside. rewrite list_elem_of_bind.
  setoid_rewrite list_elem_of_fmap. setoid_rewrite elem_of_seq.
  destruct a as [r c]. simpl. split.
  - intros [y [[x [[= -> ->] ?]] ?]]. lia.
  - intros [? ?]. exists r. split; [|lia]. exists c. split; [done|lia].
Qed.

Lemma NoDup_row_cells (row size : nat) : NoDup (row_cells row size).
Proof.
  unfold row_cells. apply NoDup_fmap_2; [|apply NoDup_seq]. by intros x y [= ->].
Qed.

Lemma NoDup_col_cells (col size : nat) : NoDup (col_cells col size).
Proof.
  unfold col_cells. apply NoDup_fmap_2; [|apply NoDup_seq]. by intros x y [= ->].
Qed.

Lemma NoDup_block_cells (sr sc br bc : nat) : NoDup (block_cells sr sc br bc).
Proof.
  unfold block_cells. apply NoDup_bind.
  - intros x y z Hx Hy. rewrite !list_elem_of_fmap.
    intros [? [-> _]] [? [[= -> _] _]]. done.
  - intros x _. apply NoDup_fmap_2; [|apply NoDup_seq]. by intros a b [= ->].
  - apply NoDup_seq.
Qed.

Lemma getBlockDimensions_6 : getBlockDimensions 6 = (2, 3).
Proof. reflexivity. Qed.

Lemma getBlockDimensions_9 : getBlockDimensions 9 = (3, 3).
Proof. reflexivity. Qed.

Lemma boxShape_6 : boxShape 6 = (2, 3).
Proof. reflexivity. Qed.

Lemma boxShape_9 : boxShape 9 = (3, 3).
Proof. reflexivity. Qed.

(** For the supported sizes the code looks up the box shape of the
    specification. *)
Lemma getBlockDimensions_boxShape (size : nat) :
  supported size → getBlockDimensions size = boxShape size.
Proof. by intros [-> | ->]. Qed.

(** The block of a cell lies inside the matrix, for the supported sizes. *)
Lemma block_inside (size : nat) (a b : nat * nat) :
  supported size → inside size a →
  b ∈ block_cells (boxOrigin size a).1 (boxOrigin size a).2
        (getBlockDimensions size).1 (getBlockDimensions size).2 →
  inside size b.
Proof.
  intros Hs [Ha1 Ha2]. rewrite elem_of_block_cells. unfold boxOrigin, inside.
  destruct a as [r c], b as [r' c']. cbn [fst snd] in *.
  destruct Hs as [-> | ->]; rewrite ?getBlockDimensions_6, ?getBlockDimensions_9, ?boxShape_6, ?boxShape_9;
    cbn [fst snd].
  - divmod r 2. divmod c 3. lia.
  - divmod r 3. divmod c 3. lia.
Qed.

(** A cell of the matrix is in the block of [a] exactly when it has the
    box origin of [a]. *)
Lemma block_cells_origin (size : nat) (a b : nat * nat) :
  supported size →
  b ∈ block_cells (boxOrigin size a).1 (boxOrigin size a).2
        (getBlockDimensions size).1 (getBlockDimensions size).2 ↔
  boxOrigin size b = boxOrigin size a.
Proof.
  intros Hs. rewrite elem_of_block_cells. unfold boxOrigin.
  destruct a as [r c], b as [r' c']. cbn [fst snd].
  destruct Hs as [-> | ->]; rewrite ?getBlockDimensions_6, ?getBlockDimensions_9, ?boxShape_6, ?boxShape_9;
    cbn [fst snd].
  - divmod r 2. divmod c 3. divmod r' 2. divmod c' 3.
    rewrite pair_equal_spec. lia.
  - divmod r 3. divmod c 3. divmod r' 3. divmod c' 3.
    rewrite pair_equal_spec. lia.
Qed.

(** ** Constraint checker *)

Lemma scan_spec (g : grid) (num : Z) (cells : list (nat * nat)) :
  Forall (λ a, a.1 < length g) cells →
  ∃ found, scan g num cells = Done found ∧
           (found = true ↔ ∃ a, a ∈ cells ∧ at_ g a = Some num).
Proof.
  induction cells as [|[r c] rest IH]; intros Hin.
  - exists false. split; [done|]. split; [done|]. intros [a [Ha _]]. by inv Ha.
  - apply Forall_cons in Hin as [Hr Hrest]. simpl in Hr. simpl.
    rewrite (get_cell g r c Hr). simpl.
    destruct (holds (cell g r c) num) eqn:Eh.
    + exists true. split; [done|]. split; [|done]. intros _.
      exists (r, c). split; [left|]. by apply holds_true.
    + destruct (IH Hrest) as [found [Hscan Hfound]]. exists found. split; [done|].
      rewrite Hfound. apply holds_false in Eh. split.
      * intros [a [Ha Hv]]. exists a. split; [by right|done].
      * intros [a [Ha Hv]]. apply elem_of_cons in Ha as [->|Ha]; [done|eauto].
Qed.

Lemma Forall_inside_rows (size : nat) (g : grid) (cells : list (nat * nat)) :
  square size g → (∀ a, a ∈ cells → inside size a) →
  Forall (λ a, a.1 < length g) cells.
Proof.
  intros [Hl _] Hin. apply Forall_forall. intros a Ha.
  destruct (Hin a Ha). lia.
Qed.

(** What [isSafe] returns on a matrix, with the three groups of cells
    spelled as the loops visit them. *)
Lemma isSafe_groups (g : grid) (size row col : nat) (num : Z) :
  supported size → square size g → row < size → col < size →
  ∃ safe, isSafe g row col num size = Done safe ∧
    (safe = false ↔
       ∃ a, (a ∈ row_cells row size ∨ a ∈ col_cells col size ∨
             a ∈ block_cells (boxOrigin size (row, col)).1 (boxOrigin size (row, col)).2
                   (getBlockDimensions size).1 (getBlockDimensions size).2) ∧
            at_ g a = Some num).
Proof.
  intros Hs Hsq Hr Hc. unfold isSafe, boxOrigin.
  rewrite <- (getBlockDimensions_boxShape size Hs).
  destruct (getBlockDimensions size) as [br bc] eqn:Ebd.
  destruct (scan_spec g num (row_cells row size)) as [f1 [-> H1]].
  { eapply Forall_inside_rows; [done|]. intros a Ha%elem_of_row_cells.
    unfold inside. lia. }
  destruct (scan_spec g num (col_cells col size)) as [f2 [E2 H2]].
  { eapply Forall_inside_rows; [done|]. intros a Ha%elem_of_col_cells.
    unfold inside. lia. }
  destruct (scan_spec g num (block_cells (row - row mod br) (col - col mod bc) br bc))
    as [f3 [E3 H3]].
  { eapply Forall_inside_rows; [done|]. intros a Ha.
    apply (block_inside size (row, col)); [done|done|].
    unfold boxOrigin. rewrite <- (getBlockDimensions_boxShape size Hs). by rewrite Ebd. }
  cbn [fst snd].
  destruct f1; simpl.
  { exists false. split; [done|]. split; [|done]. intros _.
    destruct H1 as [[a [? ?]] _]; [done|]. exists a. eauto. }
  rewrite E2. destruct f2; simpl.
  { exists false. split; [done|]. split; [|done]. intros _.
    destruct H2 as [[a [? ?]] _]; [done|]. exists a. eauto. }
  rewrite E3. simpl. exists (negb f3). split; [done|].
  destruct f3; simpl.
  - split; [|done]. intros _. destruct H3 as [[a [? ?]] _]; [done|]. exists a. eauto.
  - split; [done|]. intros [a [[Ha|[Ha|Ha]] Hv]].
    + destruct H1 as [_ H1]. discriminate H1. eauto.
    + destruct H2 as [_ H2]. discriminate H2. eauto.
    + destruct H3 as [_ H3]. discriminate H3. eauto.
Qed.

(** ** Violation detector *)

Lemma bucket_of_insert (seen : gmap (option Z) (list (nat * nat))) (v k : option Z)
    (l : list (nat * nat)) :
  bucket_of (<[v := l]> seen) k = if decide (v = k) then l else bucket_of seen k.
Proof.
  unfold bucket_of. rewrite lookup_insert. by case_decide.
Qed.

Lemma fill_spec (g : grid) (cells : list (nat * nat)) :
  Forall (λ a, a.1 < length g) cells →
  ∀ seen, ∃ seen', fill g seen cells = Done seen' ∧
    ∀ k, bucket_of seen' k =
         bucket_of seen k ++ (if decide (k = Some 0%Z) then [] else members g k cells).
Proof.
  induction cells as [|[r c] rest IH]; intros Hin seen.
  - exists seen. split; [done|]. intros k. unfold members.
    case_decide; by rewrite app_nil_r.
  - apply Forall_cons in Hin as [Hr Hrest]. simpl in Hr. simpl. unfold bucket. simpl.
    rewrite (get_cell g r c Hr). simpl.
    destruct (holds (cell g r c) 0) eqn:Eh; simpl.
    + destruct (IH Hrest seen) as [seen' [-> Hb]]. exists seen'. split; [done|].
      intros k. rewrite Hb. f_equal. case_decide as Hk; [done|].
      unfold members. rewrite filter_cons_False; [done|].
      unfold at_. simpl. apply holds_true in Eh. congruence.
    + destruct (IH Hrest (<[cell g r c := default [] (seen !! cell g r c) ++ [(r, c)]]> seen))
        as [seen' [-> Hb]].
      exists seen'. split; [done|]. intros k. rewrite Hb, bucket_of_insert.
      apply holds_false in Eh. unfold members.
      destruct (decide (cell g r c = k)) as [<-|Hne].
      * rewrite filter_cons_True by reflexivity.
        case_decide; [done|]. unfold bucket_of. by rewrite <- app_assoc.
      * case_decide; [done|]. by rewrite filter_cons_False.
Qed.

Lemma markErrors_fold (l : list (list (nat * nat))) (errors : gset (nat * nat)) (x : nat * nat) :
  x ∈ foldl (λ errors cells,
               if decide (1 < length cells) then errors ∪ list_to_set cells else errors)
            errors l ↔
  x ∈ errors ∨ ∃ cells, cells ∈ l ∧ 1 < length cells ∧ x ∈ cells.
Proof.
  revert errors. induction l as [|cells l IH]; intros errors; simpl.
  - split; [by left|]. intros [?|[cells [Hc _]]]; [done|by inv Hc].
  - rewrite IH. split.
    + intros [Hx|[cells' [Hin Hc]]].
      * case_decide as Hd; [|by left].
        apply elem_of_union in Hx as [Hx|Hx]; [by left|].
        right. exists cells. rewrite elem_of_list_to_set in Hx.
        split; [left|done].
      * right. exists cells'. split; [by right|done].
    + intros [Hx|[cells' [Hin [Hlen Hc]]]].
      * left. case_decide; [apply elem_of_union; by left|done].
      * apply elem_of_cons in Hin as [->|Hin].
        -- left. rewrite decide_True by done.
           apply elem_of_union. right. by apply elem_of_list_to_set.
        -- right. eauto.
Qed.

Lemma markErrors_spec (errors : gset (nat * nat))
    (seen : gmap (option Z) (list (nat * nat))) (x : nat * nat) :
  x ∈ markErrors errors seen ↔
  x ∈ errors ∨ ∃ k, 1 < length (bucket_of seen k) ∧ x ∈ bucket_of seen k.
Proof.
  unfold markErrors. rewrite markErrors_fold. apply or_iff_compat_l. split.
  - intros [cells [Hin [Hlen Hx]]].
    apply list_elem_of_fmap in Hin as [[k cells'] [-> Hin]]. simpl in *.
    apply elem_of_map_to_list in Hin. exists k. unfold bucket_of. by rewrite Hin.
  - intros [k [Hlen Hx]]. unfold bucket_of in *.
    destruct (seen !! k) as [cells|] eqn:E; simpl in *; [|lia].
    exists cells. split; [|done].
    apply list_elem_of_fmap. exists (k, cells). split; [done|].
    by apply elem_of_map_to_list.
Qed.

Lemma NoDup_other {A : Type} `{EqDecision A} (l : list A) (x : A) :
  NoDup l → 1 < length l → ∃ y, y ∈ l ∧ y ≠ x.
Proof.
  destruct l as [|a [|b l]]; simpl; try lia. intros Hnd _.
  apply NoDup_cons in Hnd as [Hab _].
  destruct (decide (a = x)) as [->|Ha].
  - exists b. split; [right; left|]. intros ->. apply Hab. left.
  - exists a. split; [left|done].
Qed.

Lemma NoDup_two {A : Type} (l : list A) (x y : A) :
  x ∈ l → y ∈ l → x ≠ y → 1 < length l.
Proof.
  destruct l as [|a [|b l]]; simpl; [by intros H; inv H| |lia].
  intros Hx%list_elem_of_singleton Hy%list_elem_of_singleton. congruence.
Qed.

(** One group: the cells marked are the conflicting ones. *)
Lemma group_spec (g : grid) (errors : gset (nat * nat)) (cells : list (nat * nat)) :
  NoDup cells → Forall (λ a, a.1 < length g) cells →
  ∃ seen, fill g ∅ cells = Done seen ∧
    ∀ x, x ∈ markErrors errors seen ↔ x ∈ errors ∨ conflict g cells x.
Proof.
  intros Hnd Hin. destruct (fill_spec g cells Hin ∅) as [seen [Hfill Hb]].
  exists seen. split; [done|]. intros x. rewrite markErrors_spec.
  apply or_iff_compat_l. unfold conflict. split.
  - intros [k [Hlen Hx]]. rewrite Hb in Hlen, Hx.
    unfold bucket_of in Hlen, Hx. rewrite lookup_empty in Hlen, Hx. simpl in *.
    case_decide as Hk; [simpl in Hlen; lia|].
    unfold members in *.
    destruct (NoDup_other _ x (NoDup_filter _ _ Hnd) Hlen) as [y [Hy Hne]].
    apply list_elem_of_filter in Hx as [Hvx Hx].
    apply list_elem_of_filter in Hy as [Hvy Hy].
    split; [done|]. split; [congruence|]. exists y. split; [done|]. split; [done|congruence].
  - intros [Hx [Hnz [y [Hy [Hne Hv]]]]]. exists (at_ g x). rewrite Hb.
    unfold bucket_of. rewrite lookup_empty. simpl.
    rewrite decide_False by done. unfold members.
    assert (x ∈ filter (λ a, at_ g a = at_ g x) cells) as Hfx
      by (by apply list_elem_of_filter).
    assert (y ∈ filter (λ a, at_ g a = at_ g x) cells) as Hfy
      by (by apply list_elem_of_filter).
    split; [|done]. eapply (NoDup_two _ x y); done.
Qed.

Lemma checkGroups_spec (g : grid) (groups : list (list (nat * nat))) :
  Forall (λ cells, NoDup cells ∧ Forall (λ a, a.1 < length g) cells) groups →
  ∀ errors, ∃ errors', checkGroups g errors groups = Done errors' ∧
    ∀ x, x ∈ errors' ↔ x ∈ errors ∨ ∃ cells, cells ∈ groups ∧ conflict g cells x.
Proof.
  induction groups as [|cells rest IH]; intros Hgs errors.
  - exists errors. split; [done|]. intros x. split; [by left|].
    intros [?|[cells [Hc _]]]; [done|by inv Hc].
  - apply Forall_cons in Hgs as [[Hnd Hin] Hrest]. simpl.
    destruct (group_spec g errors cells Hnd Hin) as [seen [-> Hm]]. simpl.
    destruct (IH Hrest (markErrors errors seen)) as [errors' [-> He]].
    exists errors'. split; [done|]. intros x. rewrite He, Hm. split.
    + intros [[?|?]|[cells' [? ?]]]; [by left| |].
      * right. exists cells. split; [left|done].
      * right. exists cells'. split; [by right|done].
    + intros [?|[cells' [Hin' Hc]]]; [by left; left|].
      apply elem_of_cons in Hin' as [->|Hin']; [by left; right|].
      right. eauto.
Qed.

Lemma origins_6_2 : origins 6 2 = [0; 2; 4].
Proof. reflexivity. Qed.

Lemma origins_6_3 : origins 6 3 = [0; 3].
Proof. reflexivity. Qed.

Lemma origins_9_3 : origins 9 3 = [0; 3; 6].
Proof. reflexivity. Qed.

(** The block groups are the blocks of the cells of the matrix. *)
Lemma elem_of_block_groups (size : nat) (cells : list (nat * nat)) :
  supported size →
  cells ∈ block_groups size ↔
  ∃ a, inside size a ∧
       cells = block_cells (boxOrigin size a).1 (boxOrigin size a).2
                 (getBlockDimensions size).1 (getBlockDimensions size).2.
Proof.
  intros Hs. unfold block_groups, boxOrigin, inside.
  rewrite list_elem_of_bind.
  destruct Hs as [-> | ->];
    rewrite ?getBlockDimensions_6, ?getBlockDimensions_9, ?boxShape_6, ?boxShape_9;
    cbn [fst snd].
  - split.
    + intros [br [Hc Hbr]]. apply list_elem_of_fmap in Hc as [bc [-> Hbc]].
      exists (br, bc). cbn [fst snd].
      rewrite origins_6_2 in Hbr. rewrite origins_6_3 in Hbc.
      list_cases Hbr. list_cases Hbc.
      assert (br mod 2 = 0 ∧ bc mod 3 = 0 ∧ br < 6 ∧ bc < 6) as (-> & -> & ? & ?)
        by (destruct Hbr as [->|[->|[->|[]]]], Hbc as [->|[->|[]]];
            repeat split; (reflexivity || lia)).
      rewrite !Nat.sub_0_r. done.
    + intros [[r c] [[Hr Hc] ->]]. cbn [fst snd] in *.
      exists (r - r mod 2). split.
      * apply list_elem_of_fmap. exists (c - c mod 3). split; [done|].
        rewrite origins_6_3, !elem_of_cons. divmod c 3. lia.
      * rewrite origins_6_2, !elem_of_cons. divmod r 2. lia.
  - split.
    + intros [br [Hc Hbr]]. apply list_elem_of_fmap in Hc as [bc [-> Hbc]].
      exists (br, bc). cbn [fst snd].
      rewrite origins_9_3 in Hbr, Hbc.
      list_cases Hbr. list_cases Hbc.
      assert (br mod 3 = 0 ∧ bc mod 3 = 0 ∧ br < 9 ∧ bc < 9) as (-> & -> & ? & ?)
        by (destruct Hbr as [->|[->|[->|[]]]], Hbc as [->|[->|[->|[]]]];
            repeat split; (reflexivity || lia)).
      rewrite !Nat.sub_0_r. done.
    + intros [[r c] [[Hr Hc] ->]]. cbn [fst snd] in *.
      exists (r - r mod 3). split.
      * apply list_elem_of_fmap. exists (c - c mod 3). split; [done|].
        rewrite origins_9_3, !elem_of_cons. divmod c 3. lia.
      * rewrite origins_9_3, !elem_of_cons. divmod r 3. lia.
Qed.

Lemma computeErrors_unfold (g : grid) (size : nat) :
  computeErrors g size =
  errors ← checkGroups g ∅ (row_groups size);
  errors ← checkGroups g errors (col_groups size);
  checkGroups g errors (block_groups size).
Proof.
  unfold computeErrors, block_groups. by destruct (getBlockDimensions size).
Qed.

Lemma groups_wf (size : nat) (g : grid) (groups : list (list (nat * nat))) :
  square size g →
  (∀ cells, cells ∈ groups → NoDup cells ∧ ∀ a, a ∈ cells → inside size a) →
  Forall (λ cells, NoDup cells ∧ Forall (λ a, a.1 < length g) cells) groups.
Proof.
  intros Hsq Hg. apply Forall_forall. intros cells Hc.
  destruct (Hg cells Hc) as [Hnd Hin]. split; [done|].
  by eapply Forall_inside_rows.
Qed.

Lemma elem_of_row_groups (size : nat) (cells : list (nat * nat)) :
  cells ∈ row_groups size ↔ ∃ r, r < size ∧ cells = row_cells r size.
Proof.
  unfold row_groups. rewrite list_elem_of_fmap. setoid_rewrite elem_of_seq.
  split; intros [r [? ?]]; exists r; split; (done || lia).
Qed.

Lemma elem_of_col_groups (size : nat) (cells : list (nat * nat)) :
  cells ∈ col_groups size ↔ ∃ c, c < size ∧ cells = col_cells c size.
Proof.
  unfold col_groups. rewrite list_elem_of_fmap. setoid_rewrite elem_of_seq.
  split; intros [c [? ?]]; exists c; split; (done || lia).
Qed.

(** What [computeErrors] returns on a matrix. *)
Lemma computeErrors_spec (g : grid) (size : nat) :
  supported size → square size g →
  ∃ errs, computeErrors g size = Done errs ∧ ∀ x, x ∈ errs ↔ violates size g x.
Proof.
  intros Hs Hsq. rewrite computeErrors_unfold.
  destruct (checkGroups_spec g (row_groups size)) with (errors := (∅ : gset (nat * nat)))
    as [e1 [-> H1]].
  { apply (groups_wf size); [done|]. intros cells [r [Hr ->]]%elem_of_row_groups.
    split; [apply NoDup_row_cells|]. intros a Ha%elem_of_row_cells. unfold inside. lia. }
  simpl.
  destruct (checkGroups_spec g (col_groups size)) with (errors := e1) as [e2 [-> H2]].
  { apply (groups_wf size); [done|]. intros cells [c [Hc ->]]%elem_of_col_groups.
    split; [apply NoDup_col_cells|]. intros a Ha%elem_of_col_cells. unfold inside. lia. }
  simpl.
  destruct (checkGroups_spec g (block_groups size)) with (errors := e2) as [e3 [-> H3]].
  { apply (groups_wf size); [done|].
    intros cells [a [Ha ->]]%elem_of_block_groups; [|done].
    split; [apply NoDup_block_cells|]. intros b Hb. by eapply block_inside. }
  exists e3. split; [done|]. intros x. rewrite H3, H2, H1. unfold violates, conflict. split.
  - intros [[[Hx|Hrow]|Hcol]|Hblock].
    + by apply not_elem_of_empty in Hx.
    + destruct Hrow as [cells [[r [Hr ->]]%elem_of_row_groups [Hx [Hnz [y [Hy [Hne Hv]]]]]]].
      apply elem_of_row_cells in Hx, Hy. unfold inside.
      split; [lia|]. split; [done|]. exists y. split; [lia|]. split; [done|].
      split; [|done]. left. lia.
    + destruct Hcol as [cells [[c [Hc ->]]%elem_of_col_groups [Hx [Hnz [y [Hy [Hne Hv]]]]]]].
      apply elem_of_col_cells in Hx, Hy. unfold inside.
      split; [lia|]. split; [done|]. exists y. split; [lia|]. split; [done|].
      split; [|done]. right; left. lia.
    + destruct Hblock as [cells [Hcells [Hx [Hnz [y [Hy [Hne Hv]]]]]]].
      apply elem_of_block_groups in Hcells as [a [Ha ->]]; [|done].
      split; [by eapply block_inside|]. split; [done|]. exists y.
      split; [by eapply block_inside|]. split; [done|]. split; [|done].
      right; right. apply block_cells_origin in Hx, Hy; [|done..]. congruence.
  - intros [Hx [Hnz [y [Hy [Hne [Hrel Hv]]]]]]. destruct Hrel as [Hrel|[Hrel|Hrel]].
    + left; left; right. exists (row_cells x.1 size). destruct Hx, Hy.
      split; [apply elem_of_row_groups; eauto|].
      split; [by apply elem_of_row_cells|]. split; [done|].
      exists y. split; [apply elem_of_row_cells; lia|done].
    + left; right. exists (col_cells x.2 size). destruct Hx, Hy.
      split; [apply elem_of_col_groups; eauto|].
      split; [by apply elem_of_col_cells|]. split; [done|].
      exists y. split; [apply elem_of_col_cells; lia|done].
    + right.
      exists (block_cells (boxOrigin size x).1 (boxOrigin size x).2
                (getBlockDimensions size).1 (getBlockDimensions size).2).
      split; [apply elem_of_block_groups; eauto|].
      split; [by apply block_cells_origin|]. split; [done|].
      exists y. split; [by apply block_cells_origin|done].
Qed.

(** ** Solution counter: the board is restored *)

Lemma firstEmpty_Some (g : grid) (cells : list (nat * nat)) (a : nat * nat) :
  firstEmpty g cells = Done (Some a) → a ∈ cells ∧ at_ g a = Some 0%Z.
Proof.
  induction cells as [|[r c] rest IH]; simpl; [done|].
  intros H. apply bind_Done in H as [v [Hv H]].
  apply get_Done in Hv as [_ Hv].
  destruct (holds v 0) eqn:Eh.
  - invert H. split; [left|]. apply holds_true in Eh. by subst.
  - destruct (IH H). split; [by right|done].
Qed.

Lemma firstEmpty_None (g : grid) (cells : list (nat * nat)) :
  firstEmpty g cells = Done None → ∀ a, a ∈ cells → at_ g a ≠ Some 0%Z.
Proof.
  induction cells as [|[r c] rest IH]; simpl; [by intros _ a Ha; inv Ha|].
  intros H. apply bind_Done in H as [v [Hv H]].
  apply get_Done in Hv as [_ Hv].
  destruct (holds v 0) eqn:Eh; [done|]. apply holds_false in Eh.
  intros a [->|Ha]%elem_of_cons; [by subst|by apply IH].
Qed.

Lemma firstEmpty_total (g : grid) (cells : list (nat * nat)) :
  Forall (λ a, a.1 < length g) cells → ∃ found, firstEmpty g cells = Done found.
Proof.
  induction cells as [|[r c] rest IH]; intros Hin; simpl; [eauto|].
  apply Forall_cons in Hin as [Hr Hrest]. simpl in Hr.
  rewrite (get_cell g r c Hr). simpl.
  destruct (holds (cell g r c) 0); [eauto|by apply IH].
Qed.

Section Restore.

Variables (size limit row col : nat).
Variable rec : grid * nat → outcome (grid * nat).
Hypothesis rec_restores : ∀ st st', rec st = Done st' → st'.1 = st.1.

Lemma tryCandidates_restores (nums : list nat) :
  ∀ st st', cell st.1 row col = Some 0%Z →
    tryCandidates rec size limit row col nums st = Done st' → st'.1 = st.1.
Proof.
  induction nums as [|num rest IH]; intros st st' Hz; simpl.
  - by intros [= <-].
  - intros H. apply bind_Done in H as [safe [_ H]].
    destruct safe; [|by apply IH].
    apply bind_Done in H as [b1 [Hput1 H]].
    apply bind_Done in H as [st1 [Hrec H]].
    apply bind_Done in H as [b2 [Hput2 H]].
    apply rec_restores in Hrec. simpl in Hrec. rewrite Hrec in Hput2.
    pose proof (put_undo _ _ _ _ _ _ Hz Hput1 Hput2) as ->.
    case_decide; [by invert H|].
    by apply IH in H.
Qed.

End Restore.

Lemma backtrack_restores (size limit fuel : nat) :
  ∀ st st', backtrack fuel size limit st = Done st' → st'.1 = st.1.
Proof.
  induction fuel as [|fuel IH]; intros st st'; simpl; [done|].
  case_decide as Hlim; [by intros [= <-]|].
  intros H. apply bind_Done in H as [found [Hfound H]].
  destruct found as [[row col]|]; [|by invert H].
  apply firstEmpty_Some in Hfound as [_ Hz].
  by eapply tryCandidates_restores.
Qed.

(** ** Counting the empty cells *)

Lemma zeros_app (g1 g2 : grid) : zeros (g1 ++ g2) = zeros g1 + zeros g2.
Proof. unfold zeros. by rewrite concat_app, filter_app, length_app. Qed.

Lemma zeros_cons (row : list Z) (g : grid) :
  zeros (row :: g) = length (filter (λ v : Z, v = 0%Z) row) + zeros g.
Proof. unfold zeros. simpl. by rewrite filter_app, length_app. Qed.

Lemma zeros_row_insert (row : list Z) (c : nat) (old v : Z) :
  row !! c = Some old →
  length (filter (λ v : Z, v = 0%Z) (<[c := v]> row)) + zero_one old =
  length (filter (λ v : Z, v = 0%Z) row) + zero_one v.
Proof.
  intros Hc. pose proof (lookup_lt_Some _ _ _ Hc).
  rewrite insert_take_drop by done.
  rewrite <- (take_drop_middle row c old Hc) at 3.
  rewrite !filter_app, !length_app, !filter_cons. unfold zero_one.
  repeat case_decide; simpl; lia.
Qed.

Lemma zeros_put (g g' : grid) (r c : nat) (old v : Z) :
  cell g r c = Some old → put g r c v = Done g' →
  zeros g' + zero_one old = zeros g + zero_one v.
Proof.
  unfold cell, put. destruct (g !! r) as [row|] eqn:E; [|done]. simpl.
  intros Hc. case_decide; [|done]. intros [= <-].
  pose proof (lookup_lt_Some _ _ _ E).
  rewrite insert_take_drop by done.
  rewrite <- (take_drop_middle g r row E) at 3.
  rewrite !zeros_app, !zeros_cons.
  pose proof (zeros_row_insert row c old v Hc). lia.
Qed.

Lemma entries_cell (size : nat) (g : grid) (x : nat * nat) (v : Z) :
  entries size g → at_ g x = Some v → (0 ≤ v ≤ Z.of_nat size)%Z.
Proof.
  unfold entries, at_, cell. intros He.
  destruct (g !! x.1) as [row|] eqn:E; [|done]. simpl. intros Hc.
  rewrite Forall_forall in He. specialize (He row (list_elem_of_lookup_2 _ _ _ E)).
  rewrite Forall_forall in He. apply He. by eapply list_elem_of_lookup_2.
Qed.

Lemma entries_put (size : nat) (g g' : grid) (r c : nat) (v : Z) :
  entries size g → (0 ≤ v ≤ Z.of_nat size)%Z → put g r c v = Done g' → entries size g'.
Proof.
  unfold entries, put. intros He Hv. destruct (g !! r) as [row|] eqn:E; [|done].
  case_decide; [|done]. intros [= <-].
  apply Forall_insert; [done|]. apply Forall_insert; [|done].
  rewrite Forall_forall in He. apply He. by eapply list_elem_of_lookup_2.
Qed.

(** ** Solution counter: the count *)

Lemma related_sym (size : nat) (x y : nat * nat) : related size x y → related size y x.
Proof. unfold related. intros [?|[?|?]]; auto. Qed.

Lemma related_groups (size row col : nat) (a : nat * nat) :
  supported size → inside size (row, col) →
  (a ∈ row_cells row size ∨ a ∈ col_cells col size ∨
   a ∈ block_cells (boxOrigin size (row, col)).1 (boxOrigin size (row, col)).2
         (getBlockDimensions size).1 (getBlockDimensions size).2) ↔
  inside size a ∧ related size (row, col) a.
Proof.
  intros Hs Hin. rewrite elem_of_row_cells, elem_of_col_cells. split.
  - intros [[? ?]|[[? ?]|Hb]].
    + destruct Hin. split; [split; simpl in *; lia|]. by left.
    + destruct Hin. split; [split; simpl in *; lia|]. by right; left.
    + split; [by eapply block_inside|]. right; right.
      symmetry. by eapply block_cells_origin.
  - intros [[? ?] [Hr|[Hc|Hb]]].
    + left. simpl in Hr. done.
    + right; left. simpl in Hc. done.
    + right; right. by apply (block_cells_origin size (row, col) a).
Qed.

Lemma isSafe_related (g : grid) (size row col : nat) (num : Z) :
  supported size → square size g → inside size (row, col) →
  ∃ safe, isSafe g row col num size = Done safe ∧
    (safe = false ↔
       ∃ a, inside size a ∧ related size (row, col) a ∧ at_ g a = Some num).
Proof.
  intros Hs Hsq Hin. destruct Hin as [Hr Hc]. simpl in Hr, Hc.
  destruct (isSafe_groups g size row col num Hs Hsq Hr Hc) as [safe [E Hsafe]].
  exists safe. split; [done|]. rewrite Hsafe. split.
  - intros [a [Ha Hv]]. exists a. apply related_groups in Ha; [|done|done].
    destruct Ha. done.
  - intros [a [Ha [Hrel Hv]]]. exists a. split; [|done].
    apply related_groups; done.
Qed.

Lemma length_one {A : Type} (L : list A) (g : A) :
  NoDup L → (∀ h, h ∈ L ↔ h = g) → length L = 1.
Proof.
  intros Hnd HL. destruct L as [|a [|b L]]; simpl.
  - assert (g ∈ []) as Hg by (by apply HL). by inv Hg.
  - done.
  - apply NoDup_cons in Hnd as [Hab _]. exfalso. apply Hab.
    assert (a = g) as -> by (apply HL; left).
    assert (b = g) as -> by (apply HL; right; left). left.
Qed.

Lemma length_filter_split {A : Type} (P : A → Prop) `{∀ x, Decision (P x)} (L : list A) :
  length L = length (filter P L) + length (filter (λ x, ¬ P x) L).
Proof.
  induction L as [|a L IH]; [done|]. rewrite !filter_cons.
  destruct (decide (P a)); destruct (decide (¬ P a)); simpl; try lia; tauto.
Qed.

(** A matrix without empty cell is its own and only completion. *)
Lemma completion_of_full (size : nat) (g h : grid) :
  square size g → entries size g → consistent size g →
  (∀ a, inside size a → at_ g a ≠ Some 0%Z) →
  is_completion size g h ↔ h = g.
Proof.
  intros Hsq He Hc Hfull. split.
  - intros (Hsqh & _ & _ & Hext). symmetry. apply (grid_ext size); [done..|].
    intros r c Hr Hcc. destruct (square_cell size g r c Hsq Hr Hcc) as [v Hv].
    rewrite Hv. symmetry. apply (Hext (r, c)); [done|].
    intros ->. by apply (Hfull (r, c)).
  - intros ->. split; [done|]. split; [|split; [done|]].
    + intros [r c] [Hr Hcc]. simpl in *.
      destruct (square_cell size g r c Hsq Hr Hcc) as [v Hv].
      exists v. split; [done|].
      pose proof (entries_cell size g (r, c) v He Hv).
      assert (v ≠ 0%Z); [|lia]. intros ->. by apply (Hfull (r, c)).
    + by intros x v Hv _.
Qed.

(** Placing a safe value in an empty cell keeps the grid free of
    conflicts. *)
Lemma consistent_put (size : nat) (g g1 : grid) (row col : nat) (num : Z) :
  consistent size g → at_ g (row, col) = Some 0%Z →
  (¬ ∃ a, inside size a ∧ related size (row, col) a ∧ at_ g a = Some num) →
  put g row col num = Done g1 → consistent size g1.
Proof.
  intros Hc Hz Hsafe Hput x (Hx & Hnz & y & Hy & Hne & Hrel & Hv).
  apply put_Done in Hput as (_ & _ & Hcells). unfold at_ in *.
  rewrite !Hcells in *. destruct x as [xr xc], y as [yr yc]. simpl in *.
  destruct (decide (xr = row ∧ xc = col)) as [[-> ->]|Hx'].
  - rewrite decide_False in Hv by (intros [-> ->]; done).
    apply Hsafe. exists (yr, yc). done.
  - destruct (decide (yr = row ∧ yc = col)) as [[-> ->]|Hy'].
    + apply Hsafe. exists (xr, xc). split; [done|]. split; [by apply related_sym|done].
    + apply (Hc (xr, xc)). split; [done|]. split; [done|]. exists (yr, yc). done.
Qed.

(** The completions of the grid with [num] placed are the completions of
    the grid that hold [num] at that cell. *)
Lemma completion_put (size : nat) (g g1 h : grid) (row col : nat) (num : Z) :
  at_ g (row, col) = Some 0%Z → num ≠ 0%Z → put g row col num = Done g1 →
  is_completion size g1 h ↔ is_completion size g h ∧ at_ h (row, col) = Some num.
Proof.
  intros Hz Hnum Hput. apply put_Done in Hput as (_ & _ & Hcells).
  unfold is_completion, extends, at_ in *. split.
  - intros (Hsq & Hf & Hc & Hext). split; [split; [done|split; [done|split; [done|]]]|].
    + intros [r c] v Hv Hv0. apply (Hext (r, c)); [|done]. rewrite Hcells. simpl in *.
      case_decide as Hd; [|done]. destruct Hd as [-> ->]. congruence.
    + apply (Hext (row, col)); [|done]. rewrite Hcells. simpl. by rewrite decide_True.
  - intros [(Hsq & Hf & Hc & Hext) Hh]. split; [done|split; [done|split; [done|]]].
    intros [r c] v Hv Hv0. rewrite Hcells in Hv. simpl in *.
    case_decide as Hd; [|by apply (Hext (r, c))].
    destruct Hd as [-> ->]. congruence.
Qed.

(** A value found in a related cell cannot be placed in any completion. *)
Lemma completion_unsafe (size : nat) (g h : grid) (row col : nat) (num : Z) (a : nat * nat) :
  is_completion size g h → inside size (row, col) → at_ g (row, col) = Some 0%Z →
  num ≠ 0%Z → inside size a → related size (row, col) a → at_ g a = Some num →
  at_ h (row, col) ≠ Some num.
Proof.
  intros (Hsq & Hf & Hc & Hext) Hin Hz Hnum Ha Hrel Hv Hh.
  apply (Hc a). split; [done|]. pose proof (Hext a num Hv Hnum) as Hha.
  split; [congruence|]. exists (row, col). split; [done|].
  split; [intros <-; congruence|]. split; [by apply related_sym|congruence].
Qed.

Section Count.

Variables (size limit fuel : nat).
Hypothesis size_supported : supported size.
Variable rec : grid * nat → outcome (grid * nat).
Hypothesis rec_counts :
  ∀ g count, square size g → zeros g < fuel → counts size limit rec g count.

Variables (g : grid) (row col : nat).
Hypothesis g_square : square size g.
Hypothesis cell_inside : inside size (row, col).
Hypothesis cell_empty : at_ g (row, col) = Some 0%Z.
Hypothesis fuel_enough : zeros g ≤ fuel.

Lemma tryCandidates_counts (nums : list nat) :
  Forall (λ k, 1 ≤ k ≤ size) nums →
  ∀ count, ∃ n,
    tryCandidates rec size limit row col nums (g, count) = Done (g, n) ∧
    (entries size g → consistent size g → NoDup nums → count ≤ limit →
     ∀ L, NoDup L →
       (∀ h, h ∈ L ↔ is_completion size g h ∧
                      ∃ k, k ∈ nums ∧ at_ h (row, col) = Some (Z.of_nat k)) →
       n = Nat.min (count + length L) limit).
Proof.
  induction nums as [|num rest IH]; intros Hnums count.
  - exists count. split; [done|]. intros _ _ _ Hcount L _ HL.
    destruct L as [|h L]; [simpl; lia|].
    destruct (HL h) as [[_ [k [Hk _]]] _]; [left|]. by inv Hk.
  - apply Forall_cons in Hnums as [Hnum Hrest]. simpl.
    destruct (isSafe_related g size row col (Z.of_nat num) size_supported g_square cell_inside)
      as [safe [-> Hsafe]]. simpl.
    destruct safe.
    + (* the value is placed *)
      destruct cell_inside as [Hr Hc]. simpl in Hr, Hc.
      destruct (put_inside size g row col (Z.of_nat num) g_square Hr Hc) as [g1 Hput1].
      rewrite Hput1. simpl.
      pose proof (put_square _ _ _ _ _ _ g_square Hput1) as Hsq1.
      pose proof (zeros_put g g1 row col 0 (Z.of_nat num) cell_empty Hput1) as Hz.
      unfold zero_one in Hz. rewrite decide_True in Hz by done.
      rewrite decide_False in Hz by lia.
      destruct (rec_counts g1 count Hsq1 ltac:(lia)) as [n1 [-> Hn1]]. simpl.
      destruct (put_inside size g1 row col 0 Hsq1 Hr Hc) as [g2 Hput2].
      rewrite Hput2. simpl.
      pose proof (put_undo _ _ _ _ _ _ cell_empty Hput1 Hput2) as ->.
      assert (safe_here : ¬ ∃ a, inside size a ∧ related size (row, col) a ∧
                                at_ g a = Some (Z.of_nat num)).
      { intros Ha. by apply Hsafe in Ha. }
      assert (∀ L, entries size g → consistent size g → NoDup (num :: rest) →
                count ≤ limit → NoDup L →
                (∀ h, h ∈ L ↔ is_completion size g h ∧
                      ∃ k, k ∈ num :: rest ∧ at_ h (row, col) = Some (Z.of_nat k)) →
                n1 = Nat.min (count + length (filter (λ h, at_ h (row, col) = Some (Z.of_nat num)) L)) limit ∧
                (∀ h, h ∈ filter (λ h, ¬ at_ h (row, col) = Some (Z.of_nat num)) L ↔
                      is_completion size g h ∧
                      ∃ k, k ∈ rest ∧ at_ h (row, col) = Some (Z.of_nat k))) as Hsplit.
      { intros L He Hcons Hnd Hcount HndL HL. split.
        - apply Hn1; [|by eapply consistent_put|done|by apply NoDup_filter|].
          + eapply entries_put; [done| |done]. lia.
          + intros h. rewrite list_elem_of_filter, HL.
            rewrite (completion_put size g g1 h row col (Z.of_nat num));
              [|done|lia|done].
            split; [intros [? [? _]]; done|].
            intros [? ?]. split; [done|]. split; [done|].
            exists num. split; [left|done].
        - intros h. rewrite list_elem_of_filter, HL. split.
          + intros [Hne [Hcomp [k [Hk Hv]]]]. split; [done|]. exists k. split; [|done].
            apply elem_of_cons in Hk as [->|Hk]; done.
          + intros [Hcomp [k [Hk Hv]]]. split; [|split; [done|]].
            * rewrite Hv. intros [= Heq]. apply Nat2Z.inj in Heq. subst k.
              by apply NoDup_cons in Hnd as [? _].
            * exists k. split; [by right|done]. }
      case_decide as Hlim.
      * exists n1. split; [done|]. intros He Hcons Hnd Hcount L HndL HL.
        destruct (Hsplit L He Hcons Hnd Hcount HndL HL) as [E1 _].
        pose proof (length_filter_split (λ h, at_ h (row, col) = Some (Z.of_nat num)) L) as HlenL.
        cbv beta in HlenL. lia.
      * destruct (IH Hrest n1) as [n [-> Hn]]. exists n. split; [done|].
        intros He Hcons Hnd Hcount L HndL HL.
        destruct (Hsplit L He Hcons Hnd Hcount HndL HL) as [E1 HL2].
        pose proof (length_filter_split (λ h, at_ h (row, col) = Some (Z.of_nat num)) L) as HlenL.
        cbv beta in HlenL.
        rewrite (Hn He Hcons) with
          (L := filter (λ h, ¬ at_ h (row, col) = Some (Z.of_nat num)) L);
          [lia|by apply NoDup_cons in Hnd as [_ ?]|lia|by apply NoDup_filter|done].
    + (* the value is refused: no completion holds it at this cell *)
      destruct (IH Hrest count) as [n [-> Hn]]. exists n. split; [done|].
      intros He Hcons Hnd Hcount L HndL HL.
      apply Hn; [done|done|by apply NoDup_cons in Hnd as [_ ?]|done|done|].
      intros h. rewrite HL. split.
      * intros [Hcomp [k [Hk Hv]]]. split; [done|]. exists k. split; [|done].
        apply elem_of_cons in Hk as [->|Hk]; [|done].
        destruct Hsafe as [[a (Ha & Hrel & Hva)] _]; [done|].
        exfalso. eapply (completion_unsafe size g h row col (Z.of_nat num) a); try done. lia.
      * intros [Hcomp [k [Hk Hv]]]. split; [done|]. exists k. split; [by right|done].
Qed.

End Count.

Lemma all_cells_rows (size : nat) (g : grid) :
  square size g → Forall (λ a, a.1 < length g) (all_cells size).
Proof.
  intros Hsq. eapply Forall_inside_rows; [done|].
  intros a Ha. by apply elem_of_all_cells.
Qed.

Lemma candidates_range (size : nat) : Forall (λ k, 1 ≤ k ≤ size) (seq 1 size).
Proof. apply Forall_forall. intros k Hk%elem_of_seq. lia. Qed.

(** In a completion every cell holds one of the candidates. *)
Lemma completion_candidate (size : nat) (g h : grid) (a : nat * nat) :
  is_completion size g h → inside size a →
  ∃ k, k ∈ seq 1 size ∧ at_ h a = Some (Z.of_nat k).
Proof.
  intros (_ & Hf & _) Ha. destruct (Hf a Ha) as [v [Hv Hrange]].
  exists (Z.to_nat v). rewrite elem_of_seq. split; [lia|].
  rewrite Z2Nat.id by lia. done.
Qed.

Lemma backtrack_counts (size limit : nat) :
  supported size →
  ∀ fuel g count, square size g → zeros g < fuel →
    counts size limit (backtrack fuel size limit) g count.
Proof.
  intros Hs. induction fuel as [|fuel IH]; intros g count Hsq Hfuel; [lia|].
  unfold counts. simpl. case_decide as Hlim.
  { exists count. split; [done|]. intros _ _ Hcount L _ _. lia. }
  destruct (firstEmpty_total g (all_cells size) (all_cells_rows size g Hsq))
    as [found Hfound].
  rewrite Hfound. simpl. destruct found as [[row col]|].
  - apply firstEmpty_Some in Hfound as [Hin%elem_of_all_cells Hz].
    destruct (tryCandidates_counts size limit fuel Hs (backtrack fuel size limit) IH
                g row col Hsq Hin Hz ltac:(lia) (seq 1 size) (candidates_range size) count)
      as [n [-> Hn]].
    exists n. split; [done|]. intros He Hcons Hcount L HndL HL.
    apply Hn; [done|done|apply NoDup_seq|done|done|].
    intros h. rewrite HL. split; [|by intros [? _]].
    intros Hcomp. split; [done|]. by eapply completion_candidate.
  - exists (S count). split; [done|]. intros He Hcons Hcount L HndL HL.
    pose proof (firstEmpty_None g _ Hfound) as Hfull.
    rewrite (length_one L g HndL); [lia|].
    intros h. rewrite HL. apply completion_of_full; [done..|].
    intros a Ha. apply Hfull. by apply elem_of_all_cells.
Qed.

(** The completions of a grid can be listed. *)
Lemma completions_listed (size : nat) :
  supported size →
  ∀ fuel g, zeros g < fuel → square size g → entries size g → consistent size g →
    ∃ L, NoDup L ∧ ∀ h, h ∈ L ↔ is_completion size g h.
Proof.
  intros Hs. induction fuel as [|fuel IH]; intros g Hfuel Hsq He Hcons; [lia|].
  destruct (firstEmpty_total g (all_cells size) (all_cells_rows size g Hsq))
    as [[[row col]|] Hfound].
  - apply firstEmpty_Some in Hfound as [Hin%elem_of_all_cells Hz].
    assert (∀ nums, Forall (λ k, 1 ≤ k ≤ size) nums → NoDup nums →
              ∃ L, NoDup L ∧ ∀ h, h ∈ L ↔ is_completion size g h ∧
                     ∃ k, k ∈ nums ∧ at_ h (row, col) = Some (Z.of_nat k)) as Hnums.
    { induction nums as [|num rest IHn]; intros Hrange Hnd.
      - exists []. split; [constructor|]. intros h. split; [by intros Hh; inv Hh|].
        intros [_ [k [Hk _]]]. by inv Hk.
      - apply Forall_cons in Hrange as [Hnum Hrest].
        apply NoDup_cons in Hnd as [Hnotin Hnd].
        destruct (IHn Hrest Hnd) as [L2 [Hnd2 HL2]].
        destruct (isSafe_related g size row col (Z.of_nat num) Hs Hsq Hin)
          as [safe [_ Hsafe]].
        destruct safe.
        + destruct Hin as [Hr Hc]. simpl in Hr, Hc.
          destruct (put_inside size g row col (Z.of_nat num) Hsq Hr Hc) as [g1 Hput].
          pose proof (zeros_put g g1 row col 0 (Z.of_nat num) Hz Hput) as Hzeros.
          unfold zero_one in Hzeros. rewrite decide_True in Hzeros by done.
          rewrite decide_False in Hzeros by lia.
          destruct (IH g1) as [L1 [Hnd1 HL1]]; [lia|by eapply put_square| | |].
          { eapply entries_put; [done| |done]. lia. }
          { eapply consistent_put; [done|done| |done]. intros Ha. by apply Hsafe in Ha. }
          assert (∀ h, h ∈ L1 ↔ is_completion size g h ∧
                         at_ h (row, col) = Some (Z.of_nat num)) as HL1'.
          { intros h. rewrite HL1. apply completion_put; [done|lia|done]. }
          exists (L1 ++ L2). split.
          * apply NoDup_app. split; [done|]. split; [|done].
            intros h [_ Hv1]%HL1' [_ [k [Hk Hv2]]]%HL2.
            rewrite Hv1 in Hv2. injection Hv2 as Hv2. apply Nat2Z.inj in Hv2. by subst.
          * intros h. rewrite elem_of_app, HL1', HL2. split.
            -- intros [[? ?]|[? [k [? ?]]]].
               ++ split; [done|]. exists num. split; [left|done].
               ++ split; [done|]. exists k. split; [by right|done].
            -- intros [Hcomp [k [Hk Hv]]]. apply elem_of_cons in Hk as [->|Hk].
               ++ left. done.
               ++ right. split; [done|]. eauto.
        + exists L2. split; [done|]. intros h. rewrite HL2. split.
          * intros [? [k [? ?]]]. split; [done|]. exists k. split; [by right|done].
          * intros [Hcomp [k [Hk Hv]]]. split; [done|]. exists k. split; [|done].
            apply elem_of_cons in Hk as [->|Hk]; [|done].
            destruct Hsafe as [[a (Ha & Hrel & Hva)] _]; [done|].
            exfalso.
            eapply (completion_unsafe size g h row col (Z.of_nat num) a); try done. lia. }
    destruct (Hnums (seq 1 size) (candidates_range size) (NoDup_seq _ _)) as [L [HndL HL]].
    exists L. split; [done|]. intros h. rewrite HL. split; [by intros [? _]|].
    intros Hcomp. split; [done|]. by eapply completion_candidate.
  - exists [g]. split; [apply NoDup_singleton|].
    intros h. rewrite list_elem_of_singleton. symmetry.
    apply completion_of_full; [done..|].
    intros a Ha. eapply firstEmpty_None; [done|]. by apply elem_of_all_cells.
Qed.

(** The number of completions exists and is one number only. *)
Lemma solution_count_exists (size : nat) (g : grid) :
  supported size → square size g → entries size g → consistent size g →
  ∃ n, solution_count size g n.
Proof.
  intros Hs Hsq He Hcons.
  destruct (completions_listed size Hs (S (zeros g)) g) as [L [Hnd HL]]; [lia|done..|].
  exists (length L), L. done.
Qed.

Lemma solution_count_unique (size : nat) (g : grid) (n m : nat) :
  solution_count size g n → solution_count size g m → n = m.
Proof.
  intros (L1 & Hnd1 & <- & HL1) (L2 & Hnd2 & <- & HL2).
  apply Permutation_length. apply NoDup_Permutation; [done..|].
  intros h. by rewrite HL1, HL2.
Qed.

Lemma countSolutions_counts (size limit : nat) (g : grid) :
  supported size → square size g →
  ∃ n, countSolutions g size limit = Done (n, g) ∧
    (entries size g → consistent size g →
     ∀ m, solution_count size g m → n = Nat.min m limit).
Proof.
  intros Hs Hsq. unfold countSolutions.
  destruct (backtrack_counts size limit Hs (S (zeros g)) g 0 Hsq ltac:(lia)) as [n [-> Hn]].
  exists n. split; [done|]. intros He Hcons m (L & Hnd & <- & HL).
  apply (Hn He Hcons ltac:(lia) L Hnd HL).
Qed.

(** ** Puzzle digger *)

Lemma swap_Forall (P : nat → Prop) (indices : list nat) (i j : nat) :
  Forall P indices → Forall P (swap indices i j).
Proof.
  intros HP. unfold swap.
  destruct (indices !! i) as [a|] eqn:Ei; [|done].
  destruct (indices !! j) as [b|] eqn:Ej; [|done].
  rewrite Forall_forall in HP.
  apply Forall_insert; [apply Forall_insert|];
    [apply Forall_forall, HP|apply HP|apply HP]; by eapply list_elem_of_lookup_2.
Qed.

Lemma shuffle_Forall (random : nat → nat) (P : nat → Prop) (indices : list nat) :
  Forall P indices → Forall P (shuffle random indices).
Proof.
  unfold shuffle. generalize (reverse (seq 1 (length indices - 1))). intros steps.
  revert indices. induction steps as [|i steps IH]; intros indices HP; simpl; [done|].
  apply IH. by apply swap_Forall.
Qed.

(** Writing back the value a cell held gives the board as it was. *)
Lemma put_restore (g g1 g2 : grid) (r c : nat) (old v : Z) :
  cell g r c = Some old → put g r c v = Done g1 → put g1 r c old = Done g2 → g2 = g.
Proof.
  unfold cell, put. destruct (g !! r) as [row|] eqn:E; [|done]. simpl.
  intros Hc. case_decide; [|done]. intros [= <-].
  pose proof (lookup_lt_Some _ _ _ E).
  rewrite list_lookup_insert_eq by done. rewrite length_insert.
  case_decide; [|done]. intros [= <-].
  rewrite list_insert_insert_eq, list_insert_insert_eq.
  rewrite (list_insert_id row) by done. by apply list_insert_id.
Qed.

(** On a matrix without empty cell the counter finds one solution, the
    matrix itself, whatever it holds. *)
Lemma countSolutions_full (size limit : nat) (g : grid) :
  square size g → (∀ a, inside size a → at_ g a ≠ Some 0%Z) → 0 < limit →
  countSolutions g size limit = Done (1, g).
Proof.
  intros Hsq Hfull Hlimit. unfold countSolutions. simpl.
  rewrite decide_False by lia.
  destruct (firstEmpty_total g (all_cells size) (all_cells_rows size g Hsq))
    as [[a|] Hfound]; rewrite Hfound; simpl; [|done].
  apply firstEmpty_Some in Hfound as [Ha%elem_of_all_cells Hz].
  by destruct (Hfull a Ha).
Qed.

Lemma zeros_none (g : grid) :
  (∀ row v, row ∈ g → v ∈ row → v ≠ 0%Z) → zeros g = 0.
Proof.
  induction g as [|row g IH]; intros Hnz; [done|].
  rewrite zeros_cons, IH; [|intros row' v Hrow; apply Hnz; by right].
  assert (∀ v, v ∈ row → v ≠ 0%Z) as Hrow by (intros v; apply Hnz; left).
  clear -Hrow. induction row as [|v row IHr]; [done|].
  rewrite filter_cons_False; [|apply Hrow; left].
  apply IHr. intros v' Hv'. apply Hrow. by right.
Qed.

Lemma zeros_full (size : nat) (g : grid) :
  square size g → (∀ a, inside size a → at_ g a ≠ Some 0%Z) → zeros g = 0.
Proof.
  intros Hsq Hfull. apply zeros_none. intros row v Hrow Hv ->.
  apply list_elem_of_lookup in Hrow as [r Hr].
  apply list_elem_of_lookup in Hv as [c Hc].
  assert (cell g r c = Some 0%Z) as Hcell by (unfold cell; by rewrite Hr).
  destruct (cell_Some_inside size g r c 0 Hsq Hcell).
  by apply (Hfull (r, c)).
Qed.

Lemma index_inside (size idx : nat) :
  idx < size * size → inside size (idx / size, idx mod size).
Proof.
  intros Hidx. assert (0 < size) by lia. split; simpl.
  - apply Nat.Div0.div_lt_upper_bound. lia.
  - apply Nat.mod_upper_bound. lia.
Qed.

Lemma dig_spec (size : nat) (maxToRemove : Z) :
  supported size →
  ∀ indices st,
    Forall (λ idx, idx < size * size) indices →
    square size st.1 → countSolutions st.1 size 2 = Done (1, st.1) →
    zeros st.1 = st.2 → (Z.of_nat st.2 ≤ Z.max 0 maxToRemove)%Z →
    ∃ st', dig size maxToRemove indices st = Done st' ∧
           square size st'.1 ∧ countSolutions st'.1 size 2 = Done (1, st'.1) ∧
           zeros st'.1 = st'.2 ∧ (Z.of_nat st'.2 ≤ Z.max 0 maxToRemove)%Z.
Proof.
  intros Hs. induction indices as [|idx rest IH]; intros [g removed] Hidx Hsq Hone Hz Hmax;
    simpl in *.
  - exists (g, removed). done.
  - apply Forall_cons in Hidx as [Hidx Hrest].
    case_decide as Hstop; [exists (g, removed); done|].
    destruct (index_inside size idx Hidx) as [Hr Hc]. simpl in Hr, Hc.
    destruct Hsq as [Hlen Hrows].
    rewrite get_cell by lia. simpl.
    destruct (square_cell size g (idx / size) (idx mod size) (conj Hlen Hrows) Hr Hc)
      as [v Hv].
    rewrite Hv. simpl. destruct (Z.eqb v 0) eqn:Ev.
    + apply IH; done.
    + apply Z.eqb_neq in Ev.
      destruct (put_inside size g (idx / size) (idx mod size) 0 (conj Hlen Hrows) Hr Hc)
        as [g1 Hput1].
      rewrite Hput1. simpl. rewrite clone2D_id.
      pose proof (put_square _ _ _ _ _ _ (conj Hlen Hrows) Hput1) as Hsq1.
      destruct (countSolutions_counts size 2 g1 Hs Hsq1) as [n [Hcount _]].
      rewrite Hcount. simpl.
      case_decide as Hn.
      * destruct (put_inside size g1 (idx / size) (idx mod size) v Hsq1 Hr Hc)
          as [g2 Hput2].
        rewrite Hput2. simpl.
        pose proof (put_restore _ _ _ _ _ _ _ Hv Hput1 Hput2) as ->.
        apply IH; done.
      * assert (n = 1) as -> by lia.
        pose proof (zeros_put g g1 _ _ v 0 Hv Hput1) as Hzeros.
        unfold zero_one in Hzeros. rewrite decide_False in Hzeros by done.
        rewrite decide_True in Hzeros by done.
        apply IH; simpl; [done|done|done|lia|lia].
Qed.

Lemma filled_check (size : nat) (g : grid) :
  square size g → Forall (Forall (λ v, (1 ≤ v ≤ Z.of_nat size)%Z)) g → filled size g.
Proof.
  intros Hsq Hall [r c] [Hr Hc]. simpl in *.
  destruct (square_cell size g r c Hsq Hr Hc) as [v Hv]. exists v. split; [done|].
  unfold cell in Hv. destruct (g !! r) as [row|] eqn:E; [|done]. simpl in Hv.
  rewrite Forall_forall in Hall. specialize (Hall row (list_elem_of_lookup_2 _ _ _ E)).
  rewrite Forall_forall in Hall. apply Hall. by eapply list_elem_of_lookup_2.
Qed.

Lemma consistent_check (size : nat) (g : grid) :
  supported size → square size g → computeErrors g size = Done ∅ → consistent size g.
Proof.
  intros Hs Hsq Hce x Hx.
  destruct (computeErrors_spec g size Hs Hsq) as [errs [E Herrs]].
  rewrite Hce in E. injection E as <-. apply Herrs in Hx. by apply not_elem_of_empty in Hx.
Qed.

Lemma filled_full (size : nat) (g : grid) (a : nat * nat) :
  filled size g → inside size a → at_ g a ≠ Some 0%Z.
Proof.
  intros Hf Ha. destruct (Hf a Ha) as [v [-> Hv]]. intros [= ->]. lia.
Qed.

Lemma filled_entries (size : nat) (g : grid) :
  Forall (Forall (λ v, (1 ≤ v ≤ Z.of_nat size)%Z)) g → entries size g.
Proof.
  unfold entries. intros Hall. eapply Forall_impl; [done|].
  intros row Hrow. eapply Forall_impl; [done|]. intros v. simpl. lia.
Qed.

Lemma SOLUTION_6_square : square 6 SOLUTION_6.
Proof. apply (bool_decide_unpack _). by vm_compute. Qed.

Lemma SOLUTION_9_square : square 9 SOLUTION_9.
Proof. apply (bool_decide_unpack _). by vm_compute. Qed.

Lemma SOLUTION_6_solution : solution 6 SOLUTION_6.
Proof.
  split; [apply SOLUTION_6_square|]. split.
  - apply filled_check; [apply SOLUTION_6_square|]. apply (bool_decide_unpack _). by vm_compute.
  - apply consistent_check; [by left|apply SOLUTION_6_square|]. by vm_compute.
Qed.

Lemma SOLUTION_9_solution : solution 9 SOLUTION_9.
Proof.
  split; [apply SOLUTION_9_square|]. split.
  - apply filled_check; [apply SOLUTION_9_square|]. apply (bool_decide_unpack _). by vm_compute.
  - apply consistent_check; [by right|apply SOLUTION_9_square|]. by vm_compute.
Qed.

(** What the digger returns on a full matrix. *)
Lemma makeUniquePuzzle_spec (random : nat → nat) (size : nat) (sol : grid) (cluesCount : nat) :
  supported size → square size sol → (∀ a, inside size a → at_ sol a ≠ Some 0%Z) →
  ∃ puzzle, makeUniquePuzzleFromSolution random sol cluesCount = Done puzzle ∧
    square size puzzle ∧
    countSolutions puzzle size 2 = Done (1, puzzle) ∧
    (Z.of_nat (zeros puzzle) ≤ Z.max 0 (Z.of_nat (size * size) - Z.of_nat cluesCount))%Z.
Proof.
  intros Hs Hsq Hfull. unfold makeUniquePuzzleFromSolution.
  destruct Hsq as [Hlen Hrows]. rewrite Hlen, clone2D_id.
  destruct (dig_spec size (Z.of_nat (size * size) - Z.of_nat cluesCount) Hs
              (shuffle random (seq 0 (size * size))) (sol, 0))
    as [[puzzle removed] (-> & Hsqp & Hone & Hz & Hmax)]; simpl in *.
  - apply shuffle_Forall. apply Forall_forall. intros idx Hidx%elem_of_seq. lia.
  - done.
  - apply countSolutions_full; [done|done|lia].
  - by apply (zeros_full size).
  - lia.
  - exists puzzle. subst removed. done.
Qed.

(** ** Hint selector *)

Lemma fitsb_fits (size : nat) (g : grid) (a : nat * nat) (v : nat) :
  fitsb size g a v = true ↔ fits size g a v.
Proof.
  unfold fitsb, fits. split.
  - destruct (put g a.1 a.2 (Z.of_nat v)) as [g'| | |]; try done.
    destruct (computeErrors g' size) as [errs| | |] eqn:E; try done.
    intros Hb%bool_decide_eq_true. exists g', errs. done.
  - intros (g' & errs & -> & -> & Ha). by apply bool_decide_eq_true.
Qed.

Lemma collectCandidates_spec (size : nat) (g : grid) (r c : nat) :
  supported size → square size g → inside size (r, c) →
  ∀ vs found, length found ≤ 1 →
    collectCandidates g size r c vs found =
    Done (take 2 (found ++ filter (λ v, fitsb size g (r, c) v = true) vs)).
Proof.
  intros Hs Hsq [Hr Hc]. simpl in Hr, Hc.
  induction vs as [|v rest IH]; intros found Hlen; simpl.
  - rewrite app_nil_r, take_ge by lia. done.
  - rewrite clone2D_id.
    destruct (put_inside size g r c (Z.of_nat v) Hsq Hr Hc) as [g' Hput].
    rewrite Hput. simpl.
    destruct (computeErrors_spec g' size Hs (put_square _ _ _ _ _ _ Hsq Hput))
      as [errs [Herrs _]].
    rewrite Herrs. simpl.
    assert (fitsb size g (r, c) v = bool_decide ((r, c) ∉ errs)) as Hfit.
    { unfold fitsb. simpl. by rewrite Hput, Herrs. }
    rewrite filter_cons. destruct (decide ((r, c) ∈ errs)) as [Hin|Hnot].
    + rewrite decide_False by lia.
      rewrite decide_False; [by apply IH|].
      rewrite Hfit. rewrite bool_decide_eq_true. tauto.
    + rewrite (decide_True (P := fitsb size g (r, c) v = true));
        [|by rewrite Hfit, bool_decide_eq_true].
      destruct (decide (1 < length (found ++ [v]))) as [Hlen2|Hlen2].
      * rewrite length_app in Hlen2. simpl in Hlen2.
        replace (found ++ v :: filter (λ v0, fitsb size g (r, c) v0 = true) rest)
          with ((found ++ [v]) ++ filter (λ v0, fitsb size g (r, c) v0 = true) rest)
          by (by rewrite <- app_assoc).
        rewrite take_app_le by (rewrite length_app; simpl; lia).
        rewrite take_ge by (rewrite length_app; simpl; lia). done.
      * rewrite IH by lia. by rewrite <- app_assoc.
Qed.

Lemma filter_one {A : Type} (P : A → Prop) `{∀ x, Decision (P x)} (l : list A) :
  NoDup l →
  length (filter P l) = 1 ↔ ∃ v, v ∈ l ∧ P v ∧ ∀ w, w ∈ l → P w → w = v.
Proof.
  intros Hnd. split.
  - intros Hlen. destruct (filter P l) as [|v [|w k]] eqn:E; simpl in Hlen; try lia.
    assert (v ∈ filter P l) as Hv by (rewrite E; left).
    apply list_elem_of_filter in Hv as [HP Hv]. exists v. split; [done|]. split; [done|].
    intros w Hw HPw. assert (w ∈ filter P l) as Hwf by (by apply list_elem_of_filter).
    rewrite E in Hwf. by apply list_elem_of_singleton in Hwf.
  - intros [v (Hv & HP & Huniq)].
    apply (length_one (filter P l) v); [by apply NoDup_filter|].
    intros w. rewrite list_elem_of_filter. split.
    + intros [? ?]. by apply Huniq.
    + by intros ->.
Qed.

(** The candidates collected for a cell number one exactly when one value
    fits. *)
Lemma collectCandidates_one (size : nat) (g : grid) (a : nat * nat) :
  supported size → square size g → inside size a →
  ∃ found, collectCandidates g size a.1 a.2 (seq 1 size) [] = Done found ∧
    (length found = 1 ↔
     ∃ v, 1 ≤ v ≤ size ∧ fits size g a v ∧ ∀ w, 1 ≤ w ≤ size → fits size g a w → w = v).
Proof.
  intros Hs Hsq Ha. destruct a as [r c].
  exists (take 2 (filter (λ v, fitsb size g (r, c) v = true) (seq 1 size))). split.
  - simpl. by rewrite (collectCandidates_spec size g r c Hs Hsq Ha) by (simpl; lia).
  - rewrite length_take.
    transitivity (length (filter (λ v, fitsb size g (r, c) v = true) (seq 1 size)) = 1);
      [lia|].
    rewrite filter_one by apply NoDup_seq. setoid_rewrite elem_of_seq.
    setoid_rewrite fitsb_fits. split.
    + intros [v (Hv & Hf & Hu)]. exists v. split; [lia|]. split; [done|].
      intros w Hw. apply Hu. lia.
    + intros [v (Hv & Hf & Hu)]. exists v. split; [lia|]. split; [done|].
      intros w Hw. apply Hu. lia.
Qed.

Lemma hintScan_spec (size : nat) (g : grid) :
  supported size → square size g →
  ∀ cells, (∀ a, a ∈ cells → inside size a) →
    ∃ target, hintScan g size cells = Done target ∧
      match target with
      | Some a => ∃ l1 l2, cells = l1 ++ a :: l2 ∧ single_candidate size g a ∧
                           ∀ b, b ∈ l1 → ¬ single_candidate size g b
      | None => ∀ b, b ∈ cells → ¬ single_candidate size g b
      end.
Proof.
  intros Hs Hsq. induction cells as [|[r c] rest IH]; intros Hin; simpl.
  - exists None. split; [done|]. intros b Hb. by inv Hb.
  - assert (inside size (r, c)) as Ha by (apply Hin; left).
    destruct Hsq as [Hlen Hrows]. rewrite get_cell by (destruct Ha; simpl in *; lia).
    simpl. destruct (IH ltac:(intros a ?; apply Hin; by right)) as [t [Ht Hspec]].
    assert (¬ single_candidate size g (r, c) →
            ∃ target, hintScan g size rest = Done target ∧
              match target with
              | Some a => ∃ l1 l2, (r, c) :: rest = l1 ++ a :: l2 ∧
                                   single_candidate size g a ∧
                                   ∀ b, b ∈ l1 → ¬ single_candidate size g b
              | None => ∀ b, b ∈ (r, c) :: rest → ¬ single_candidate size g b
              end) as Hskip.
    { intros Hno. exists t. split; [done|]. destruct t as [a|].
      - destruct Hspec as (l1 & l2 & -> & Hsingle & Hbefore).
        exists ((r, c) :: l1), l2. split; [done|]. split; [done|].
        intros b [->|Hb]%elem_of_cons; [done|by apply Hbefore].
      - intros b [->|Hb]%elem_of_cons; [done|by apply Hspec]. }
    destruct (holds (cell g r c) 0) eqn:Eh; simpl.
    + destruct (collectCandidates_one size g (r, c) Hs (conj Hlen Hrows) Ha)
        as [found [Hfound Hone]]. simpl in Hfound.
      rewrite Hfound. simpl. apply holds_true in Eh.
      case_decide as Hl.
      * exists (Some (r, c)). split; [done|]. exists [], rest. split; [done|].
        split; [split; [done|by apply Hone]|]. intros b Hb. by inv Hb.
      * apply Hskip. intros [_ Hsingle]. by apply Hone in Hsingle.
    + apply Hskip. intros [Hz _]. apply holds_false in Eh. done.
Qed.

Lemma rows_sorted (size n r0 : nat) :
  StronglySorted precedes (seq r0 n ≫= λ r, (λ c, (r, c)) <$> seq 0 size).
Proof.
  revert r0. induction n as [|n IH]; intros r0; simpl; [constructor|].
  apply StronglySorted_app_2.
  - intros x y [cx [-> _]]%list_elem_of_fmap Hy.
    apply list_elem_of_bind in Hy as [r [[cy [-> _]]%list_elem_of_fmap Hr%elem_of_seq]].
    left. simpl. lia.
  - apply (StronglySorted_fmap _ lt); [intros x y ?; right; simpl; lia|].
    generalize 0. generalize size. clear. intros n. induction n as [|n IH]; intros k; simpl.
    + constructor.
    + constructor; [apply IH|]. apply Forall_forall. intros x Hx%elem_of_seq. lia.
  - apply IH.
Qed.

Lemma all_cells_sorted (size : nat) : StronglySorted precedes (all_cells size).
Proof. apply rows_sorted. Qed.

(** In the row-major list of the cells, the cells listed before [a] are
    the cells of the matrix that precede [a]. *)
Lemma all_cells_before (size : nat) (l1 l2 : list (nat * nat)) (a b : nat * nat) :
  all_cells size = l1 ++ a :: l2 → b ∈ l1 ↔ inside size b ∧ precedes b a.
Proof.
  intros Hsplit. pose proof (all_cells_sorted size) as Hsorted. rewrite Hsplit in Hsorted.
  split.
  - intros Hb. split.
    + apply elem_of_all_cells. rewrite Hsplit. apply elem_of_app. by left.
    + eapply StronglySorted_app_1_elem_of; [done|done|left].
  - intros [Hin Hpre]. apply elem_of_all_cells in Hin. rewrite Hsplit in Hin.
    apply elem_of_app in Hin as [Hin|Hin]; [done|]. exfalso.
    apply elem_of_cons in Hin as [->|Hin].
    + unfold precedes in Hpre. lia.
    + apply StronglySorted_app_1_r in Hsorted. apply StronglySorted_inv in Hsorted as [_ Hall].
      rewrite Forall_forall in Hall. specialize (Hall b Hin).
      unfold precedes in *. lia.
Qed.

(** ** The store *)

Lemma hasEmpty_spec (g : grid) :
  hasEmpty g = true ↔ ∃ x, at_ g x = Some 0%Z.
Proof.
  unfold hasEmpty. rewrite existsb_exists. split.
  - intros [row [Hrow Hz]]. apply existsb_exists in Hz as [v [Hv Hv0]].
    apply Z.eqb_eq in Hv0. subst v.
    apply list_elem_of_In, list_elem_of_lookup in Hrow as [r Hr].
    apply list_elem_of_In, list_elem_of_lookup in Hv as [c Hc].
    exists (r, c). unfold at_, cell. simpl. by rewrite Hr.
  - intros [[r c] Hx]. unfold at_, cell in Hx. simpl in Hx.
    destruct (g !! r) as [row|] eqn:Hr; [|done]. simpl in Hx.
    exists row. split; [by eapply list_elem_of_In, list_elem_of_lookup_2|].
    apply existsb_exists. exists 0%Z.
    split; [by eapply list_elem_of_In, list_elem_of_lookup_2|done].
Qed.

Lemma updateCell_accepts (s : state) (row col : nat) (value : raw) (num : Z) :
  status s = Playing → board s ≠ [] → at_ (initialBoard s) (row, col) = Some 0%Z →
  parse (size s) value = Some num →
  updateCell s row col value = applyEdit s row col num.
Proof.
  intros Hst Hb Hclue Hparse. unfold updateCell.
  rewrite decide_False by (intros ?; congruence). rewrite decide_False by done.
  unfold at_, cell in Hclue. simpl in Hclue. unfold get.
  destruct (initialBoard s !! row) as [r|]; [|done]. simpl in *.
  rewrite Hclue. simpl.
  destruct value as [|z|]; simpl in Hparse.
  - by injection Hparse as <-.
  - case_decide as Hz; [|done]. injection Hparse as <-.
    rewrite decide_False by lia. done.
  - done.
Qed.

Lemma updateCell_clue (s : state) (row col : nat) (value : raw) (v : Z) :
  at_ (initialBoard s) (row, col) = Some v → v ≠ 0%Z →
  updateCell s row col value = Done s.
Proof.
  intros Hclue Hv. unfold updateCell.
  case_decide; [done|]. case_decide; [done|].
  unfold at_, cell in Hclue. simpl in Hclue. unfold get.
  destruct (initialBoard s !! row) as [r|]; [|done]. simpl in *.
  rewrite Hclue. simpl. by rewrite (proj2 (Z.eqb_neq v 0) Hv).
Qed.

(** An edit, when it changes anything, writes one cell whose clue is [0]
    and keeps the initial board. *)
Lemma updateCell_frame (s s' : state) (row col : nat) (value : raw) :
  updateCell s row col value = Done s' →
  initialBoard s' = initialBoard s ∧
  (board s' = board s ∨
   at_ (initialBoard s) (row, col) = Some 0%Z ∧
   ∀ x, x ≠ (row, col) → at_ (board s') x = at_ (board s) x).
Proof.
  unfold updateCell. case_decide as Hst; [intros [= <-]; auto|].
  case_decide as Hb; [intros [= <-]; auto|].
  intros H. apply bind_Done in H as [clue [Hclue H]].
  apply get_Done in Hclue as [_ Hclue].
  destruct (holds clue 0) eqn:Eh; simpl in H; [|invert H; auto].
  apply holds_true in Eh. subst clue.
  assert (∀ num, applyEdit s row col num = Done s' →
            initialBoard s' = initialBoard s ∧
            (board s' = board s ∨
             at_ (initialBoard s) (row, col) = Some 0%Z ∧
             ∀ x, x ≠ (row, col) → at_ (board s') x = at_ (board s) x)) as Happly.
  { intros num Ha. unfold applyEdit in Ha.
    apply bind_Done in Ha as [next [Hput Ha]].
    apply bind_Done in Ha as [errs [_ Ha]]. invert Ha. simpl.
    split; [done|]. right. split; [done|].
    rewrite clone2D_id in Hput. apply put_Done in Hput as (_ & _ & Hcells).
    intros [r c] Hne. unfold at_. simpl. rewrite Hcells.
    rewrite decide_False; [done|]. intros [-> ->]. done. }
  destruct value as [|z|].
  - apply (Happly _ H).
  - case_decide as Hz; [invert H; auto|apply (Happly _ H)].
  - invert H. auto.
Qed.

(** * The claims *)

Lemma PUZZLE_6_square : square 6 PUZZLE_6.
Proof. apply (bool_decide_unpack _). by vm_compute. Qed.

Lemma PUZZLE_6_entries : entries 6 PUZZLE_6.
Proof. apply (bool_decide_unpack _). by vm_compute. Qed.

Lemma PUZZLE_6_consistent : consistent 6 PUZZLE_6.
Proof. apply consistent_check; [by left|apply PUZZLE_6_square|]. by vm_compute. Qed.

(** C1.  For every solution grid of size 6 or 9, every draw of the
    shuffle and every [cluesCount], the digger returns a grid, and the
    Solution Counter with limit 2 counts exactly 1 solution of it.  The
    grid has at most [size² - cluesCount] zero cells, the number of holes
    asked for; when [cluesCount] is more than [size²] no hole is asked for
    and the grid has no zero cell. *)
Theorem digger_puzzle_unique (random : nat → nat) (size : nat) (sol : grid) (cluesCount : nat) :
  supported size → solution size sol →
  ∃ puzzle, makeUniquePuzzleFromSolution random sol cluesCount = Done puzzle ∧
    square size puzzle ∧
    countSolutions puzzle size 2 = Done (1, puzzle) ∧
    (cluesCount ≤ size * size → zeros puzzle + cluesCount ≤ size * size) ∧
    (size * size < cluesCount → zeros puzzle = 0).
Proof.
  intros Hs (Hsq & Hf & _).
  destruct (makeUniquePuzzle_spec random size sol cluesCount Hs Hsq)
    as [puzzle (Hrun & Hsqp & Hone & Hz)].
  { intros a Ha. by eapply filled_full. }
  exists puzzle. split; [done|]. split; [done|]. split; [done|]. split; lia.
Qed.

Lemma digger_puzzle_unique_witness :
  ∃ puzzle, makeUniquePuzzleFromSolution (λ _, 0) SOLUTION_6 18 = Done puzzle ∧
    square 6 puzzle ∧
    countSolutions puzzle 6 2 = Done (1, puzzle) ∧
    (18 ≤ 6 * 6 → zeros puzzle + 18 ≤ 6 * 6) ∧
    (6 * 6 < 18 → zeros puzzle = 0).
Proof.
  apply (digger_puzzle_unique (λ _, 0) 6 SOLUTION_6 18).
  - by left.
  - apply SOLUTION_6_solution.
Defined.

(** C2.  For every grid of a supported size with entries in [[0, size]]
    whose nonzero cells hold no duplicate in a row, a column or a box, and
    for every limit, the grid has a number [n] of distinct completions and
    [countSolutions] returns exactly [min n limit]: never more than
    [limit], and [n] itself when [n < limit].  The boxes of a completion
    are those of the specification ([boxShape]): 2 × 3 for size 6 and
    3 × 3 for size 9. *)
Theorem countSolutions_min (g : grid) (size limit : nat) :
  supported size → square size g → entries size g → consistent size g →
  ∃ n, solution_count size g n ∧
       (∀ m, solution_count size g m → m = n) ∧
       countSolutions g size limit = Done (Nat.min n limit, g) ∧
       Nat.min n limit ≤ limit ∧
       (n < limit → Nat.min n limit = n).
Proof.
  intros Hs Hsq He Hcons.
  destruct (solution_count_exists size g Hs Hsq He Hcons) as [n Hn].
  exists n. split; [done|]. split; [intros m Hm; by eapply solution_count_unique|].
  destruct (countSolutions_counts size limit g Hs Hsq) as [k [Hrun Hk]].
  rewrite Hrun, (Hk He Hcons n Hn). repeat split; lia.
Qed.

Lemma countSolutions_min_witness :
  ∃ n, solution_count 6 PUZZLE_6 n ∧
       (∀ m, solution_count 6 PUZZLE_6 m → m = n) ∧
       countSolutions PUZZLE_6 6 2 = Done (Nat.min n 2, PUZZLE_6) ∧
       Nat.min n 2 ≤ 2 ∧
       (n < 2 → Nat.min n 2 = n).
Proof.
  apply (countSolutions_min PUZZLE_6 6 2).
  - by left.
  - apply PUZZLE_6_square.
  - apply PUZZLE_6_entries.
  - apply PUZZLE_6_consistent.
Defined.

(** C3.  On a [size] × [size] grid with [size] 6 or 9, for a cell
    [(row, col)] of the grid and any value, in particular a candidate of
    [[1, size]], [isSafe] returns, and returns [false] exactly when the
    value occurs in row [row], or in column [col], or in the
    [blockRows] × [blockCols] box whose origin is
    [(row - row % blockRows, col - col % blockCols)], the boxes being the
    2 × 3 boxes of the specification for size 6 and its 3 × 3 boxes for
    size 9.  The call leaves the board as it was. *)
Theorem isSafe_false_iff (g : grid) (size row col : nat) (num : Z) :
  supported size → square size g → row < size → col < size →
  ∃ safe, isSafe g row col num size = Done safe ∧
    isSafe_step g row col num size = Done (safe, g) ∧
    (safe = false ↔
       (∃ c, c < size ∧ cell g row c = Some num) ∨
       (∃ r, r < size ∧ cell g r col = Some num) ∨
       (∃ r c,
          (row - row mod (boxShape size).1 ≤ r
             < row - row mod (boxShape size).1 + (boxShape size).1) ∧
          (col - col mod (boxShape size).2 ≤ c
             < col - col mod (boxShape size).2 + (boxShape size).2) ∧
          cell g r c = Some num)).
Proof.
  intros Hs Hsq Hr Hc.
  destruct (isSafe_groups g size row col num Hs Hsq Hr Hc) as [safe [Hrun Hsafe]].
  exists safe. split; [done|]. split; [unfold isSafe_step; by rewrite Hrun|].
  rewrite Hsafe. unfold at_.
  rewrite (getBlockDimensions_boxShape size Hs). split.
  - intros [[r c] [[Ha|[Ha|Ha]] Hv]]; simpl in Hv.
    + apply elem_of_row_cells in Ha as [Hr' Hc']. simpl in Hr', Hc'. subst r.
      left. eauto.
    + apply elem_of_col_cells in Ha as [Hr' Hc']. simpl in Hr', Hc'. subst c.
      right; left. eauto.
    + apply elem_of_block_cells in Ha. unfold boxOrigin in Ha. cbn [fst snd] in Ha.
      right; right. exists r, c. destruct Ha. done.
  - intros [[c [Hc' Hv]]|[[r [Hr' Hv]]|[r [c [Hr' [Hc' Hv]]]]]].
    + exists (row, c). split; [|done]. left. by apply elem_of_row_cells.
    + exists (r, col). split; [|done]. right; left. by apply elem_of_col_cells.
    + exists (r, c). split; [|done]. right; right. apply elem_of_block_cells.
      unfold boxOrigin. cbn [fst snd]. done.
Qed.

(** The value 4 at [(2, 3)] of [PUZZLE_6]: row 2 and column 3 do not hold
    it, the 2 × 3 box of the cell does, at [(3, 5)]. *)
Lemma isSafe_false_iff_witness :
  isSafe PUZZLE_6 2 3 4%Z 6 = Done false ∧
  (¬ ∃ c, c < 6 ∧ cell PUZZLE_6 2 c = Some 4%Z) ∧
  (¬ ∃ r, r < 6 ∧ cell PUZZLE_6 r 3 = Some 4%Z) ∧
  ∃ safe, isSafe PUZZLE_6 2 3 4%Z 6 = Done safe ∧
    isSafe_step PUZZLE_6 2 3 4%Z 6 = Done (safe, PUZZLE_6) ∧
    (safe = false ↔
       (∃ c, c < 6 ∧ cell PUZZLE_6 2 c = Some 4%Z) ∨
       (∃ r, r < 6 ∧ cell PUZZLE_6 r 3 = Some 4%Z) ∨
       (∃ r c,
          (2 - 2 mod (boxShape 6).1 ≤ r < 2 - 2 mod (boxShape 6).1 + (boxShape 6).1) ∧
          (3 - 3 mod (boxShape 6).2 ≤ c < 3 - 3 mod (boxShape 6).2 + (boxShape 6).2) ∧
          cell PUZZLE_6 r c = Some 4%Z)).
Proof.
  split; [by vm_compute|]. split; [|split].
  - intros [c [Hc Hv]].
    assert (c = 0 ∨ c = 1 ∨ c = 2 ∨ c = 3 ∨ c = 4 ∨ c = 5) as Hcases by lia.
    destruct Hcases as [->|[->|[->|[->|[->| ->]]]]]; by vm_compute in Hv.
  - intros [r [Hr Hv]].
    assert (r = 0 ∨ r = 1 ∨ r = 2 ∨ r = 3 ∨ r = 4 ∨ r = 5) as Hcases by lia.
    destruct Hcases as [->|[->|[->|[->|[->| ->]]]]]; by vm_compute in Hv.
  - apply (isSafe_false_iff PUZZLE_6 6 2 3 4%Z).
    + by left.
    + apply PUZZLE_6_square.
    + lia.
    + lia.
Defined.

(** C4.  Whatever the grid, the size and the limit, when [countSolutions]
    returns, the array it was given holds what it held at entry: every
    placement has been undone, on the early exit too.  On a [size] × [size]
    grid of a supported size it does return. *)
Theorem countSolutions_restores (g : grid) (size limit : nat) :
  (∀ n g', countSolutions g size limit = Done (n, g') → g' = g) ∧
  (supported size → square size g → ∃ n, countSolutions g size limit = Done (n, g)).
Proof.
  split.
  - intros n g' H. unfold countSolutions in H.
    apply bind_Done in H as [st [Hrun H]]. invert H.
    by apply backtrack_restores in Hrun.
  - intros Hs Hsq. destruct (countSolutions_counts size limit g Hs Hsq) as [n [Hrun _]].
    eauto.
Qed.

Lemma countSolutions_restores_witness :
  ∃ n, countSolutions PUZZLE_6 6 2 = Done (n, PUZZLE_6).
Proof.
  apply (proj2 (countSolutions_restores PUZZLE_6 6 2)).
  - by left.
  - apply PUZZLE_6_square.
Defined.

(** C5.  On a [size] × [size] grid with [size] 6 or 9, [computeErrors]
    returns exactly the set of the cells that are not empty and whose
    value another cell of the same row, column or box holds too, the boxes
    being the 2 × 3 boxes of the specification for size 6 and its 3 × 3
    boxes for size 9; an empty cell is never in the set, and a cell in
    conflict in several groups is in it once, the result being a set.  The
    call leaves the board as it was, and its result is determined by the
    board: it is the only set with these members, and the order in which
    the buckets of a group are walked through does not matter.  In
    particular, once [1] is written at [(0, 0)] of a board that has [1] at
    [(0, 3)], both cells are in the set. *)
Theorem computeErrors_exact (g : grid) (size : nat) :
  supported size → square size g →
  ∃ errs, computeErrors g size = Done errs ∧
    computeErrors_step g size = Done (errs, g) ∧
    (∀ x, x ∈ errs ↔ violates size g x) ∧
    (∀ x, at_ g x = Some 0%Z → x ∉ errs) ∧
    (∀ errs2 : gset (nat * nat), (∀ x, x ∈ errs2 ↔ violates size g x) → errs2 = errs) ∧
    (∀ (errors : gset (nat * nat)) (seen : gmap (option Z) (list (nat * nat)))
       (buckets : list (list (nat * nat))),
       buckets ≡ₚ (map_to_list seen).*2 →
       foldl (λ errors cells,
                if decide (1 < length cells) then errors ∪ list_to_set cells else errors)
             errors buckets
       = markErrors errors seen) ∧
    (∀ g', at_ g (0, 3) = Some 1%Z → put g 0 0 1%Z = Done g' →
       ∃ errs', computeErrors g' size = Done errs' ∧ (0, 0) ∈ errs' ∧ (0, 3) ∈ errs').
Proof.
  intros Hs Hsq. destruct (computeErrors_spec g size Hs Hsq) as [errs [Hrun Herrs]].
  exists errs. split; [done|].
  split; [unfold computeErrors_step; by rewrite Hrun|].
  split; [done|]. split; [|split; [|split]].
  - intros x Hz Hx. apply Herrs in Hx as (_ & Hnz & _). done.
  - intros errs2 H2. apply set_eq. intros x. by rewrite H2, Herrs.
  - intros errors seen buckets Hperm. apply set_eq. intros x.
    unfold markErrors. rewrite !markErrors_fold.
    by setoid_rewrite Hperm.
  - intros g' H03 Hput.
    destruct (computeErrors_spec g' size Hs (put_square _ _ _ _ _ _ Hsq Hput))
      as [errs' [Hrun' Herrs']].
    exists errs'. split; [done|].
    pose proof (cell_Some_inside size g 0 3 1 Hsq H03) as [H0 H3].
    apply put_Done in Hput as (_ & _ & Hcells).
    assert (at_ g' (0, 0) = Some 1%Z) as E00.
    { unfold at_. simpl. rewrite Hcells. by rewrite decide_True. }
    assert (at_ g' (0, 3) = Some 1%Z) as E03.
    { unfold at_. simpl. rewrite Hcells. rewrite decide_False by lia. done. }
    split; apply Herrs'.
    + split; [split; simpl; lia|]. split; [by rewrite E00|].
      exists (0, 3). split; [done|]. split; [done|]. split; [by left|congruence].
    + split; [done|]. split; [by rewrite E03|].
      exists (0, 0). split; [split; simpl; lia|]. split; [done|].
      split; [by left|congruence].
Qed.

(** On [BOXED_6] the set is made of the two [5] of one box, which share
    neither a row nor a column; the board has [1] at [(0, 3)], and writing
    [1] at [(0, 0)] adds the two cells of the row to the set. *)
Lemma computeErrors_exact_witness :
  computeErrors BOXED_6 6 = Done {[ (2, 0); (3, 1) ]} ∧
  at_ BOXED_6 (0, 3) = Some 1%Z ∧
  (∃ g', put BOXED_6 0 0 1%Z = Done g' ∧
         computeErrors g' 6 = Done {[ (0, 0); (0, 3); (2, 0); (3, 1) ]}) ∧
  ∃ errs, computeErrors BOXED_6 6 = Done errs ∧
    computeErrors_step BOXED_6 6 = Done (errs, BOXED_6) ∧
    (∀ x, x ∈ errs ↔ violates 6 BOXED_6 x) ∧
    (∀ x, at_ BOXED_6 x = Some 0%Z → x ∉ errs) ∧
    (∀ errs2 : gset (nat * nat), (∀ x, x ∈ errs2 ↔ violates 6 BOXED_6 x) → errs2 = errs) ∧
    (∀ (errors : gset (nat * nat)) (seen : gmap (option Z) (list (nat * nat)))
       (buckets : list (list (nat * nat))),
       buckets ≡ₚ (map_to_list seen).*2 →
       foldl (λ errors cells,
                if decide (1 < length cells) then errors ∪ list_to_set cells else errors)
             errors buckets
       = markErrors errors seen) ∧
    (∀ g', at_ BOXED_6 (0, 3) = Some 1%Z → put BOXED_6 0 0 1%Z = Done g' →
       ∃ errs', computeErrors g' 6 = Done errs' ∧ (0, 0) ∈ errs' ∧ (0, 3) ∈ errs').
Proof.
  split; [by vm_compute|]. split; [by vm_compute|]. split.
  { eexists. split; [reflexivity|]. by vm_compute. }
  apply (computeErrors_exact BOXED_6 6).
  - by left.
  - apply (bool_decide_unpack _). by vm_compute.
Defined.

Lemma GAME_6_started : startNewGame (λ _, 0) IDLE "easy" = Done GAME_6.
Proof. by vm_compute. Qed.

Lemma GAME_6_well_formed : well_formed GAME_6.
Proof. split; [by left|]. split; apply PUZZLE_6_square. Qed.

(** C6.  In a state that is being played, on a board of a supported size,
    [giveHint] returns and changes nothing but the hint target.  Either it
    sets the target to a cell [a] that is empty and has exactly one value
    of [[1, size]] that, written there, leaves [a] out of the violation
    set, no cell before [a] in row-major order being such a cell; or no
    cell of the board is such a cell and the state is left as it was. *)
Theorem giveHint_first_single (s : state) :
  well_formed s → status s = Playing →
  ∃ s', giveHint s = Done s' ∧
    mode s' = mode s ∧ size s' = size s ∧ solutionBoard s' = solutionBoard s ∧
    initialBoard s' = initialBoard s ∧ board s' = board s ∧ status s' = status s ∧
    errors s' = errors s ∧ elapsed s' = elapsed s ∧
    ((∃ a, hintCell s' = Some a ∧ inside (size s) a ∧
           single_candidate (size s) (board s) a ∧
           ∀ b, inside (size s) b → precedes b a →
                ¬ single_candidate (size s) (board s) b) ∨
     (s' = s ∧ ∀ b, inside (size s) b → ¬ single_candidate (size s) (board s) b)).
Proof.
  intros (Hs & _ & Hsq) Hst. unfold giveHint.
  rewrite decide_False by (intros ?; congruence).
  rewrite decide_False by (destruct Hsq as [Hl _], Hs as [E|E]; rewrite E in Hl;
                           by destruct (board s)).
  rewrite decide_False by (destruct Hs; lia).
  destruct (hintScan_spec (size s) (board s) Hs Hsq (all_cells (size s)))
    as [target [-> Htarget]].
  { intros a. by apply elem_of_all_cells. }
  simpl. destruct target as [a|].
  - eexists. split; [done|]. simpl. repeat (split; [done|]). left.
    destruct Htarget as (l1 & l2 & Hsplit & Hsingle & Hbefore).
    exists a. split; [done|]. split.
    { apply elem_of_all_cells. rewrite Hsplit. apply elem_of_app. right. left. }
    split; [done|]. intros b Hb Hpre. apply Hbefore.
    apply (all_cells_before (size s) l1 l2 a b Hsplit). done.
  - exists s. repeat (split; [done|]). right. split; [done|].
    intros b Hb. apply Htarget. by apply elem_of_all_cells.
Qed.

Lemma giveHint_first_single_witness :
  ∃ s', giveHint GAME_6 = Done s' ∧
    mode s' = mode GAME_6 ∧ size s' = size GAME_6 ∧
    solutionBoard s' = solutionBoard GAME_6 ∧
    initialBoard s' = initialBoard GAME_6 ∧ board s' = board GAME_6 ∧
    status s' = status GAME_6 ∧
    errors s' = errors GAME_6 ∧ elapsed s' = elapsed GAME_6 ∧
    ((∃ a, hintCell s' = Some a ∧ inside (size GAME_6) a ∧
           single_candidate (size GAME_6) (board GAME_6) a ∧
           ∀ b, inside (size GAME_6) b → precedes b a →
                ¬ single_candidate (size GAME_6) (board GAME_6) b) ∨
     (s' = GAME_6 ∧
      ∀ b, inside (size GAME_6) b → ¬ single_candidate (size GAME_6) (board GAME_6) b)).
Proof.
  apply (giveHint_first_single GAME_6).
  - apply GAME_6_well_formed.
  - reflexivity.
Defined.

(** C7.  After [startNewGame], whatever calls of [updateCell] follow, the
    initial board stays what it was, every cell that is nonzero in it
    holds that same value in the working board, and a call of
    [updateCell] on such a cell returns the state unchanged. *)
Theorem clues_never_change (random : nat → nat) (s0 s : state) (newMode : string)
    (edits : list (nat * nat * raw)) (x : nat * nat) (v : Z) :
  startNewGame random s0 newMode = Done s →
  at_ (initialBoard s) x = Some v → v ≠ 0%Z →
  initialBoard (foldl edit s edits) = initialBoard s ∧
  at_ (board (foldl edit s edits)) x = Some v ∧
  ∀ value, updateCell (foldl edit s edits) x.1 x.2 value = Done (foldl edit s edits).
Proof.
  intros Hstart Hclue Hv.
  assert (board s = initialBoard s) as Hsame.
  { unfold startNewGame in Hstart. apply bind_Done in Hstart as [puzzle [_ H]].
    by invert H. }
  assert (∀ t, initialBoard t = initialBoard s → at_ (board t) x = Some v →
               initialBoard (foldl edit t edits) = initialBoard s ∧
               at_ (board (foldl edit t edits)) x = Some v) as Hinv.
  { induction edits as [|[[row col] value] rest IH]; intros t Hinit Hboard; simpl; [done|].
    apply IH; unfold edit; simpl;
      destruct (updateCell t row col value) as [t'| | |] eqn:E; try done.
    - apply updateCell_frame in E as [-> _]. done.
    - apply updateCell_frame in E as [_ [->|[Hz Hother]]]; [done|].
      rewrite Hother; [done|]. intros ->. rewrite Hinit in Hz. congruence. }
  destruct (Hinv s eq_refl) as [Hinit Hboard]; [by rewrite Hsame|].
  split; [done|]. split; [done|]. intros value.
  apply (updateCell_clue _ x.1 x.2 value v); [|done].
  rewrite Hinit. by destruct x.
Qed.

Lemma clues_never_change_witness :
  initialBoard (foldl edit GAME_6 [(0, 1, RawInteger 2); (0, 0, RawInteger 5)])
    = initialBoard GAME_6 ∧
  at_ (board (foldl edit GAME_6 [(0, 1, RawInteger 2); (0, 0, RawInteger 5)])) (0, 0)
    = Some 1%Z ∧
  ∀ value,
    updateCell (foldl edit GAME_6 [(0, 1, RawInteger 2); (0, 0, RawInteger 5)]) 0 0 value
    = Done (foldl edit GAME_6 [(0, 1, RawInteger 2); (0, 0, RawInteger 5)]).
Proof.
  apply (clues_never_change (λ _, 0) IDLE GAME_6 "easy"
           [(0, 1, RawInteger 2); (0, 0, RawInteger 5)] (0, 0) 1%Z).
  - apply GAME_6_started.
  - reflexivity.
  - lia.
Defined.

(** C8.  On a board of a supported size, a call of [updateCell] that
    passes the guards (the game is being played, the cell is not a clue,
    the input is the empty string or an integer of [[1, size]]) returns a
    state whose board holds the new value, whose violation set is
    [computeErrors] of that board and whose hint target is cleared; its
    status is "completed" exactly when the board has no zero cell and the
    violation set is empty, and "playing" otherwise. *)
Theorem updateCell_completion (s : state) (row col : nat) (value : raw) (num : Z) :
  well_formed s → status s = Playing →
  at_ (initialBoard s) (row, col) = Some 0%Z → parse (size s) value = Some num →
  ∃ s', updateCell s row col value = Done s' ∧
    at_ (board s') (row, col) = Some num ∧
    computeErrors (board s') (size s') = Done (errors s') ∧
    hintCell s' = None ∧
    (status s' = Completed ↔ (∀ x, at_ (board s') x ≠ Some 0%Z) ∧ errors s' = ∅) ∧
    (status s' = Playing ↔ ¬ ((∀ x, at_ (board s') x ≠ Some 0%Z) ∧ errors s' = ∅)).
Proof.
  intros (Hs & Hsqi & Hsq) Hst Hclue Hparse.
  rewrite (updateCell_accepts s row col value num Hst); [| |done|done].
  2: { destruct Hsq as [Hl _], Hs as [E|E]; rewrite E in Hl; by destruct (board s). }
  unfold applyEdit. rewrite clone2D_id.
  destruct (cell_Some_inside _ _ _ _ _ Hsqi Hclue) as [Hr Hc].
  destruct (put_inside (size s) (board s) row col num Hsq Hr Hc) as [next Hput].
  rewrite Hput. simpl.
  destruct (computeErrors_spec next (size s) Hs (put_square _ _ _ _ _ _ Hsq Hput))
    as [errs [Herrs _]].
  rewrite Herrs. simpl. eexists. split; [done|]. simpl.
  apply put_Done in Hput as (_ & _ & Hcells).
  split; [unfold at_; simpl; rewrite Hcells; by rewrite decide_True|].
  split; [done|]. split; [done|].
  assert (hasEmpty next = false ↔ ∀ x, at_ next x ≠ Some 0%Z) as Hfull.
  { rewrite <- not_true_iff_false, hasEmpty_spec. split.
    - intros Hno x Hx. apply Hno. eauto.
    - intros Hall [x Hx]. by apply (Hall x). }
  assert (negb (hasEmpty next) && bool_decide (errs = ∅) = true ↔
          (∀ x, at_ next x ≠ Some 0%Z) ∧ errs = ∅) as Hb.
  { by rewrite andb_true_iff, negb_true_iff, bool_decide_eq_true, Hfull. }
  destruct (negb (hasEmpty next) && bool_decide (errs = ∅)).
  - assert ((∀ x, at_ next x ≠ Some 0%Z) ∧ errs = ∅) as HP by (by apply Hb).
    split; split; try done.
  - assert (¬ ((∀ x, at_ next x ≠ Some 0%Z) ∧ errs = ∅)) as HnP.
    { intros HP. apply Hb in HP. discriminate. }
    split; split; try done.
Qed.

Lemma updateCell_completion_witness :
  ∃ s', updateCell GAME_6 0 1 (RawInteger 2) = Done s' ∧
    at_ (board s') (0, 1) = Some 2%Z ∧
    computeErrors (board s') (size s') = Done (errors s') ∧
    hintCell s' = None ∧
    (status s' = Completed ↔ (∀ x, at_ (board s') x ≠ Some 0%Z) ∧ errors s' = ∅) ∧
    (status s' = Playing ↔ ¬ ((∀ x, at_ (board s') x ≠ Some 0%Z) ∧ errors s' = ∅)).
Proof.
  apply (updateCell_completion GAME_6 0 1 (RawInteger 2) 2%Z).
  - apply GAME_6_well_formed.
  - reflexivity.
  - reflexivity.
  - reflexivity.
Defined.

(** C9.  [updateCell] returns the state it was given, raising nothing,
    whenever the game is not being played; and also, the row it is called
    on being a row of the board, whenever the input is neither the empty
    string nor an integer of [[1, size]]: a non-integer or an integer
    outside that range. *)
Theorem updateCell_rejects (s : state) (row col : nat) (value : raw) :
  (status s ≠ Playing → updateCell s row col value = Done s) ∧
  (row < length (initialBoard s) →
   value = RawOther ∨
   (∃ z, value = RawInteger z ∧ (z < 1 ∨ Z.of_nat (size s) < z)%Z) →
   updateCell s row col value = Done s).
Proof.
  unfold updateCell. split.
  - intros Hst. by rewrite decide_True.
  - intros Hrow Hbad. case_decide as Hst; [done|]. case_decide as Hb; [done|].
    rewrite get_cell by done. simpl.
    destruct (negb (holds (cell (initialBoard s) row col) 0)); [done|].
    destruct Hbad as [->|[z [-> Hz]]]; [done|]. by rewrite decide_True.
Qed.

Lemma updateCell_rejects_witness :
  updateCell IDLE 0 1 (RawInteger 2) = Done IDLE ∧
  updateCell GAME_6 0 1 (RawInteger 7) = Done GAME_6 ∧
  updateCell GAME_6 0 1 RawOther = Done GAME_6.
Proof.
  split; [|split].
  - apply (proj1 (updateCell_rejects IDLE 0 1 (RawInteger 2))). by simpl.
  - apply (proj2 (updateCell_rejects GAME_6 0 1 (RawInteger 7))).
    + simpl. lia.
    + right. exists 7%Z. split; [reflexivity|]. simpl. lia.
  - apply (proj2 (updateCell_rejects GAME_6 0 1 RawOther)).
    + simpl. lia.
    + by left.
Defined.



(** * Some runs *)

Example countSolutions_blank_6 :
  countSolutions (replicate 6 (replicate 6 0%Z)) 6 2
  = Done (2, replicate 6 (replicate 6 0%Z)).
Proof. by vm_compute. Qed.

Example countSolutions_PUZZLE_6 : countSolutions PUZZLE_6 6 5 = Done (1, PUZZLE_6).
Proof. by vm_compute. Qed.

Example computeErrors_duplicate_1 :
  computeErrors (<[0 := [1; 2; 3; 1; 5; 6]%Z]> SOLUTION_6) 6
  = Done {[ (0, 0); (0, 3); (1, 3) ]}.
Proof. by vm_compute. Qed.

Example giveHint_GAME_6 :
  hintCell <$> (match giveHint GAME_6 with Done s => Some s | _ => None end)
  = Some (Some (0, 5)).
Proof. by vm_compute. Qed.

Example dig_6_with_18_clues :
  (λ puzzle, zeros puzzle) <$>
    (match makeUniquePuzzleFromSolution (λ i, i / 2) SOLUTION_6 18 with
     | Done puzzle => Some puzzle
     | _ => None
     end)
  = Some 18.
Proof. by vm_compute. Qed.

(** * Further properties *)

(** ** The shuffle *)

Lemma swap_Permutation (indices : list nat) (i j : nat) : swap indices i j ≡ₚ indices.
Proof.
  unfold swap.
  destruct (indices !! i) as [a|] eqn:Ei; [|done].
  destruct (indices !! j) as [b|] eqn:Ej; [|done].
  by apply Permutation_insert_swap.
Qed.

Lemma shuffle_perm (random : nat → nat) (indices : list nat) :
  shuffle random indices ≡ₚ indices.
Proof.
  unfold shuffle. generalize (reverse (seq 1 (length indices - 1))). intros steps.
  revert indices. induction steps as [|i steps IH]; intros indices; simpl; [done|].
  rewrite IH. apply swap_Permutation.
Qed.

(** X1.  Whatever the draws, the Fisher–Yates loop returns a permutation
    of the array it is given; on the indices [0 .. n-1] the result holds
    every index below [n], each of them once. *)
Theorem shuffle_Permutation (random : nat → nat) (indices : list nat) (n : nat) :
  shuffle random indices ≡ₚ indices ∧
  NoDup (shuffle random (seq 0 n)) ∧
  ∀ idx, idx ∈ shuffle random (seq 0 n) ↔ idx < n.
Proof.
  split; [apply shuffle_perm|]. split.
  - rewrite shuffle_perm. apply NoDup_seq.
  - intros idx. rewrite shuffle_perm, elem_of_seq. lia.
Qed.

(** ** Emptied cells *)

Lemma dug_refl (g : grid) : dug g g.
Proof. intros x. by right. Qed.

Lemma dug_trans (g1 g2 g3 : grid) : dug g1 g2 → dug g2 g3 → dug g1 g3.
Proof.
  intros H12 H23 x. destruct (H12 x) as [?|E]; [by left|].
  rewrite E. apply H23.
Qed.

Lemma dug_put (g g' : grid) (r c : nat) : put g r c 0%Z = Done g' → dug g' g.
Proof.
  intros Hput x. apply put_Done in Hput as (_ & _ & Hcells).
  unfold at_. rewrite Hcells. case_decide; [by left|by right].
Qed.

Lemma dug_extends (g' g : grid) : dug g' g → extends g' g.
Proof.
  intros Hd x v Hv Hv0. destruct (Hd x) as [E|E]; [|by rewrite <- E].
  rewrite Hv in E. by injection E.
Qed.

Lemma dug_consistent (size : nat) (g' g : grid) :
  dug g' g → consistent size g → consistent size g'.
Proof.
  intros Hd Hc x (Hx & Hnz & y & Hy & Hne & Hrel & Hv).
  apply (Hc x). destruct (Hd x) as [?|Ex]; [done|].
  destruct (Hd y) as [Ey|Ey]; [exfalso; apply Hnz; by rewrite <- Hv|].
  split; [done|]. split; [by rewrite <- Ex|]. exists y.
  split; [done|]. split; [done|]. split; [done|]. by rewrite <- Ex, <- Ey.
Qed.

Lemma dug_entries (size : nat) (g' g : grid) :
  dug g' g → entries size g → entries size g'.
Proof.
  intros Hd He. unfold entries. apply Forall_forall. intros row Hrow.
  apply Forall_forall. intros v Hv.
  apply list_elem_of_lookup in Hrow as [r Hr]. apply list_elem_of_lookup in Hv as [c Hc].
  assert (at_ g' (r, c) = Some v) as Hat by (unfold at_, cell; simpl; by rewrite Hr).
  destruct (Hd (r, c)) as [E|E].
  - rewrite Hat in E. injection E as ->. lia.
  - rewrite Hat in E. symmetry in E. by apply (entries_cell size g (r, c)).
Qed.

Lemma dug_completion (size : nat) (g' g h : grid) :
  dug g' g → is_completion size g h → is_completion size g' h.
Proof.
  intros Hd (Hsq & Hf & Hc & Hext).
  split; [done|]. split; [done|]. split; [done|].
  intros x v Hv Hv0. apply Hext; [|done]. by apply (dug_extends g' g).
Qed.

(** The digger only empties cells. *)
Lemma dig_dug (size : nat) (maxToRemove : Z) (indices : list nat) :
  ∀ st st', dig size maxToRemove indices st = Done st' → dug st'.1 st.1.
Proof.
  induction indices as [|idx rest IH]; intros [g removed] st'; simpl.
  - intros [= <-]. apply dug_refl.
  - case_decide as Hstop; [intros [= <-]; apply dug_refl|].
    intros H. apply bind_Done in H as [backup [Hget H]].
    apply get_Done in Hget as [_ Hcell].
    destruct (holds backup 0); [by apply IH in H|].
    apply bind_Done in H as [b1 [Hput1 H]].
    apply bind_Done in H as [[n b] [_ H]]. simpl in H.
    case_decide as Hn.
    + apply bind_Done in H as [b2 [Hput2 H]].
      pose proof (put_Done _ _ _ _ _ Hput1) as ([v Hv] & _).
      rewrite Hv in Hcell. subst backup. simpl in Hput2.
      pose proof (put_restore _ _ _ _ _ _ _ Hv Hput1 Hput2) as ->.
      by apply IH in H.
    + apply IH in H. simpl in H. eapply dug_trans; [done|]. by eapply dug_put.
Qed.

Lemma solution_completion (size : nat) (g sol : grid) :
  solution size sol → dug g sol → is_completion size g sol.
Proof.
  intros (Hsq & Hf & Hc) Hd.
  split; [done|]. split; [done|]. split; [done|]. by apply dug_extends.
Qed.

Lemma solution_entries (size : nat) (sol : grid) : solution size sol → entries size sol.
Proof.
  intros (Hsq & Hf & _). unfold entries. apply Forall_forall. intros row Hrow.
  apply Forall_forall. intros v Hv.
  apply list_elem_of_lookup in Hrow as [r Hr]. apply list_elem_of_lookup in Hv as [c Hc].
  assert (cell sol r c = Some v) as Hat by (unfold cell; by rewrite Hr).
  destruct (cell_Some_inside size sol r c v Hsq Hat) as [? ?].
  destruct (Hf (r, c)) as [w [Hw ?]]; [done|].
  unfold at_ in Hw. simpl in Hw. rewrite Hat in Hw. injection Hw as ->. lia.
Qed.

(** A grid on which the counter finds one solution has that solution
    only. *)
Lemma unique_completion (size : nat) (g sol : grid) :
  supported size → square size g → entries size g → consistent size g →
  countSolutions g size 2 = Done (1, g) → is_completion size g sol →
  ∀ h, is_completion size g h ↔ h = sol.
Proof.
  intros Hs Hsq He Hc Hone Hsol.
  destruct (solution_count_exists size g Hs Hsq He Hc) as [n (L & Hnd & Hlen & HL)].
  destruct (countSolutions_counts size 2 g Hs Hsq) as [k [Hrun Hk]].
  rewrite Hone in Hrun. injection Hrun as <-.
  specialize (Hk He Hc n (ex_intro _ L (conj Hnd (conj Hlen HL)))).
  assert (n = 1) as -> by lia.
  destruct L as [|h0 [|h1 L]]; try done.
  assert (sol = h0) as <- by (by apply list_elem_of_singleton, HL).
  intros h. rewrite <- HL. apply list_elem_of_singleton.
Qed.

Lemma makeUniquePuzzle_completion (random : nat → nat) (size : nat)
    (sol puzzle : grid) (cluesCount : nat) :
  supported size → solution size sol →
  makeUniquePuzzleFromSolution random sol cluesCount = Done puzzle →
  dug puzzle sol ∧ ∀ h, is_completion size puzzle h ↔ h = sol.
Proof.
  intros Hs Hsol Hrun.
  destruct (makeUniquePuzzle_spec random size sol cluesCount Hs)
    as [puzzle' (Hrun' & Hsq & Hone & _)];
    [apply Hsol|by intros a; apply filled_full, Hsol|].
  rewrite Hrun in Hrun'. injection Hrun' as <-.
  unfold makeUniquePuzzleFromSolution in Hrun.
  apply bind_Done in Hrun as [st [Hdig E]]. injection E as <-.
  apply dig_dug in Hdig. simpl in Hdig. rewrite clone2D_id in Hdig.
  split; [done|].
  apply unique_completion; try done.
  - eapply dug_entries; [done|]. by apply solution_entries.
  - eapply dug_consistent; [done|]. apply Hsol.
  - by apply solution_completion.
Qed.

(** X2.  The puzzle the digger returns is the solution with some cells
    emptied, and the solution it was dug from is its one and only
    completion. *)
Theorem digger_solution_is_the_completion (random : nat → nat) (size : nat)
    (sol puzzle : grid) (cluesCount : nat) :
  supported size → solution size sol →
  makeUniquePuzzleFromSolution random sol cluesCount = Done puzzle →
  (∀ x, at_ puzzle x = Some 0%Z ∨ at_ puzzle x = at_ sol x) ∧
  ∀ h, is_completion size puzzle h ↔ h = sol.
Proof. apply makeUniquePuzzle_completion. Qed.

Lemma digger_solution_is_the_completion_witness :
  (∀ x, at_ PUZZLE_6 x = Some 0%Z ∨ at_ PUZZLE_6 x = at_ SOLUTION_6 x) ∧
  ∀ h, is_completion 6 PUZZLE_6 h ↔ h = SOLUTION_6.
Proof.
  apply (digger_solution_is_the_completion (λ _, 0) 6 SOLUTION_6 PUZZLE_6 18).
  - by left.
  - apply SOLUTION_6_solution.
  - by vm_compute.
Defined.

(** ** How far the digger digs *)

(** In a solution every row holds every value. *)
Lemma row_has_every_value (size : nat) (sol : grid) (r : nat) (v : Z) :
  solution size sol → r < size → (1 ≤ v ≤ Z.of_nat size)%Z →
  ∃ c, c < size ∧ at_ sol (r, c) = Some v.
Proof.
  intros (Hsq & Hf & Hc) Hr Hv.
  set (R := (λ c, default 0%Z (at_ sol (r, c))) <$> seq 0 size).
  assert (∀ c, c < size → ∃ w, at_ sol (r, c) = Some w ∧ (1 ≤ w ≤ Z.of_nat size)%Z) as Hrow.
  { intros c Hcc. by apply (Hf (r, c)). }
  assert (NoDup R) as Hnd.
  { apply NoDup_fmap_2_strong; [|apply NoDup_seq].
    intros c c' Hin%elem_of_seq Hin'%elem_of_seq Heq.
    destruct (Hrow c ltac:(lia)) as [w [Hw Hwr]].
    destruct (Hrow c' ltac:(lia)) as [w' [Hw' Hwr']].
    rewrite Hw, Hw' in Heq. simpl in Heq. subst w'.
    destruct (decide (c = c')) as [|Hne]; [done|]. exfalso.
    apply (Hc (r, c)). split; [split; simpl; lia|].
    split; [rewrite Hw; intros [= ->]; lia|].
    exists (r, c'). split; [split; simpl; lia|].
    split; [intros [= ?]; lia|]. split; [by left|by rewrite Hw, Hw']. }
  assert (R ≡ₚ Z.of_nat <$> seq 1 size) as Hperm.
  { apply submseteq_length_Permutation.
    - apply NoDup_submseteq; [done|]. intros w [c [-> Hin%elem_of_seq]]%list_elem_of_fmap.
      destruct (Hrow c ltac:(lia)) as [w [-> Hwr]]. simpl.
      apply list_elem_of_fmap. exists (Z.to_nat w). split; [lia|]. apply elem_of_seq. lia.
    - unfold R. by rewrite !length_fmap, !length_seq. }
  assert (v ∈ R) as Hin.
  { rewrite Hperm. apply list_elem_of_fmap. exists (Z.to_nat v).
    split; [lia|]. apply elem_of_seq. lia. }
  apply list_elem_of_fmap in Hin as [c [-> Hin%elem_of_seq]].
  exists c. split; [lia|]. destruct (Hrow c ltac:(lia)) as [w [-> _]]. done.
Qed.

(** A solution with one cell emptied has that solution only. *)
Lemma one_hole_completion (size : nat) (sol b1 : grid) (x : nat * nat) :
  solution size sol → inside size x → put sol x.1 x.2 0%Z = Done b1 →
  ∀ h, is_completion size b1 h ↔ h = sol.
Proof.
  intros Hsol Hx Hput h. split.
  - intros (Hsq & Hf & Hc & Hext). apply (grid_ext size); [done|apply Hsol|].
    intros r c Hr Hcc. pose proof (put_Done _ _ _ _ _ Hput) as (_ & _ & Hcells).
    destruct Hsol as (Hsqs & Hfs & Hcs).
    destruct (Hfs (r, c)) as [v [Hv Hvr]]; [done|]. unfold at_ in Hv. simpl in Hv.
    rewrite Hv. destruct (decide ((r, c) = x)) as [<-|Hne].
    + simpl in *. destruct (Hf (r, c)) as [w [Hw Hwr]]; [done|].
      unfold at_ in Hw. simpl in Hw. rewrite Hw. f_equal.
      destruct (row_has_every_value size sol r w (conj Hsqs (conj Hfs Hcs)) Hr Hwr)
        as [c' [Hc' Hsw]].
      destruct (decide (c' = c)) as [->|Hcne].
      { unfold at_ in Hsw. simpl in Hsw. congruence. }
      exfalso. apply (Hc (r, c)). split; [done|].
      split; [unfold at_; simpl; rewrite Hw; intros [= ->]; lia|].
      exists (r, c'). split; [split; simpl; lia|].
      split; [intros [= ?]; done|]. split; [by left|].
      unfold at_ at 2. simpl. rewrite Hw. apply Hext; [|lia].
      unfold at_. simpl. rewrite Hcells. rewrite decide_False by (intros [_ ?]; done).
      done.
    + apply (Hext (r, c)); [|lia]. unfold at_. simpl. rewrite Hcells.
      rewrite decide_False; [done|]. intros [-> ->]. by destruct x.
  - intros ->. apply solution_completion; [done|]. by eapply dug_put.
Qed.

Lemma zeros_pos (g : grid) (x : nat * nat) : at_ g x = Some 0%Z → 0 < zeros g.
Proof.
  unfold at_, cell. destruct (g !! x.1) as [row|] eqn:E; [|done]. simpl. intros Hc.
  rewrite <- (take_drop_middle g x.1 row E), zeros_app, zeros_cons.
  rewrite <- (take_drop_middle row x.2 0%Z Hc), filter_app, filter_cons_True by done.
  rewrite length_app. simpl. lia.
Qed.

Lemma dug_zero (g' g : grid) (x : nat * nat) :
  dug g' g → at_ g x = Some 0%Z → at_ g' x = Some 0%Z.
Proof. intros Hd Hz. destruct (Hd x) as [?|E]; [done|by rewrite E]. Qed.

Lemma stuck_dug (size : nat) (g' g : grid) (x : nat * nat) :
  dug g' g → stuck size g x → stuck size g' x.
Proof.
  intros Hd (h1 & h2 & Hne & Hboth). exists h1, h2. split; [done|].
  intros h Hh. destruct (Hboth h Hh) as (Hsq & Hf & Hc & Hext).
  split; [done|]. split; [done|]. split; [done|].
  intros y v Hy Hv Hv0. apply Hext; [done| |done]. by apply (dug_extends g' g).
Qed.

(** Two completions at least when the counter does not answer 1 on a grid
    that has a completion. *)
Lemma not_one_two (size : nat) (g sol : grid) (n : nat) :
  supported size → square size g → entries size g → consistent size g →
  is_completion size g sol → countSolutions g size 2 = Done (n, g) → n ≠ 1 →
  ∃ h1 h2, h1 ≠ h2 ∧ is_completion size g h1 ∧ is_completion size g h2.
Proof.
  intros Hs Hsq He Hc Hsol Hrun Hn.
  destruct (solution_count_exists size g Hs Hsq He Hc) as [m (L & Hnd & Hlen & HL)].
  destruct (countSolutions_counts size 2 g Hs Hsq) as [k [Hrun' Hk]].
  rewrite Hrun in Hrun'. injection Hrun' as <-.
  specialize (Hk He Hc m (ex_intro _ L (conj Hnd (conj Hlen HL)))).
  apply HL in Hsol. destruct L as [|h1 [|h2 L]]; simpl in Hlen.
  - by inv Hsol.
  - subst m. simpl in Hk. lia.
  - exists h1, h2. apply NoDup_cons in Hnd as [Hnotin _].
    split; [intros ->; apply Hnotin; left|].
    split; apply HL; [left|right; left].
Qed.

Lemma dig_stuck (size : nat) (maxToRemove : Z) (sol : grid) :
  supported size → solution size sol →
  ∀ indices st st',
    Forall (λ idx, idx < size * size) indices →
    square size st.1 → dug st.1 sol →
    dig size maxToRemove indices st = Done st' →
    (maxToRemove ≤ Z.of_nat st'.2)%Z ∨
    ∀ idx, idx ∈ indices →
      at_ st'.1 (idx / size, idx mod size) = Some 0%Z ∨
      stuck size st'.1 (idx / size, idx mod size).
Proof.
  intros Hs Hsol. induction indices as [|idx rest IH];
    intros [g removed] st' Hidx Hsq Hd; simpl in *.
  - intros _. right. intros idx Hin. by inv Hin.
  - apply Forall_cons in Hidx as [Hidx Hrest].
    case_decide as Hstop; [intros [= <-]; by left|].
    intros H. apply bind_Done in H as [backup [Hget H]].
    apply get_Done in Hget as [_ Hcell].
    assert (∀ st1, dig size maxToRemove rest st1 = Done st' →
              square size st1.1 → dug st1.1 sol →
              (at_ st1.1 (idx / size, idx mod size) = Some 0%Z ∨
               stuck size st1.1 (idx / size, idx mod size)) →
              (maxToRemove ≤ Z.of_nat st'.2)%Z ∨
              ∀ idx', idx' ∈ idx :: rest →
                at_ st'.1 (idx' / size, idx' mod size) = Some 0%Z ∨
                stuck size st'.1 (idx' / size, idx' mod size)) as Hnext.
    { intros st1 Hdig Hsq1 Hd1 Hhere.
      destruct (IH st1 st' Hrest Hsq1 Hd1 Hdig) as [?|Hall]; [by left|]. right.
      intros idx' [->|Hin]%elem_of_cons; [|by apply Hall].
      pose proof (dig_dug _ _ _ _ _ Hdig) as Hdd.
      destruct Hhere as [Hz|Hst]; [left; by eapply dug_zero|right; by eapply stuck_dug]. }
    destruct (holds backup 0) eqn:Eh.
    + apply holds_true in Eh. subst backup.
      apply (Hnext (g, removed)); simpl; auto.
    + apply bind_Done in H as [b1 [Hput1 H]].
      apply bind_Done in H as [[n b] [Hcount H]]. simpl in H.
      rewrite clone2D_id in Hcount.
      pose proof (put_square _ _ _ _ _ _ Hsq Hput1) as Hsq1.
      pose proof (dug_put _ _ _ _ Hput1) as Hd1.
      pose proof (put_Done _ _ _ _ _ Hput1) as ([v Hv] & _ & Hcells).
      destruct (countSolutions_counts size 2 b1 Hs Hsq1) as [k [Hrun _]].
      rewrite Hrun in Hcount. injection Hcount as E1 E2. subst n b.
      case_decide as Hn.
      * apply bind_Done in H as [b2 [Hput2 H]].
        rewrite Hv in Hcell. subst backup. simpl in Hput2.
        pose proof (put_restore _ _ _ _ _ _ _ Hv Hput1 Hput2) as ->.
        apply (Hnext (g, removed)); simpl; [done..|]. right.
        destruct (not_one_two size b1 sol k Hs Hsq1) as (h1 & h2 & Hne & H1 & H2);
          [eapply dug_entries; [by eapply dug_trans|by apply solution_entries]
          |eapply dug_consistent; [by eapply dug_trans|apply Hsol]
          |apply solution_completion; [done|by eapply dug_trans]
          |done|done|].
        exists h1, h2. split; [done|].
        intros h [-> | ->]; [destruct H1 as (? & ? & ? & Hext)|destruct H2 as (? & ? & ? & Hext)];
          (split; [done|]; split; [done|]; split; [done|];
           intros [yr yc] w Hy Hw Hw0; apply (Hext (yr, yc)); [|done];
           unfold at_; simpl; rewrite Hcells;
           rewrite decide_False; [done|intros [-> ->]; done]).
      * apply (Hnext (b1, S removed)); simpl; [done|done|by eapply dug_trans|].
        left. unfold at_. simpl. rewrite Hcells. by rewrite decide_True.
Qed.

Lemma one_hole_count (size : nat) (sol b1 : grid) (x : nat * nat) :
  supported size → solution size sol → inside size x →
  put sol x.1 x.2 0%Z = Done b1 → countSolutions b1 size 2 = Done (1, b1).
Proof.
  intros Hs Hsol Hx Hput.
  pose proof (put_square _ _ _ _ _ _ (proj1 Hsol) Hput) as Hsq1.
  pose proof (dug_put _ _ _ _ Hput) as Hd.
  destruct (countSolutions_counts size 2 b1 Hs Hsq1) as [k [Hrun Hk]].
  rewrite Hrun, (Hk (dug_entries _ _ _ Hd (solution_entries _ _ Hsol))
                    (dug_consistent _ _ _ Hd (proj2 (proj2 Hsol))) 1); [done|].
  exists [sol]. split; [apply NoDup_singleton|]. split; [done|].
  intros h. rewrite list_elem_of_singleton. symmetry. by eapply one_hole_completion.
Qed.

Lemma index_of_cell (size : nat) (x : nat * nat) :
  inside size x →
  x.1 * size + x.2 < size * size ∧
  (x.1 * size + x.2) / size = x.1 ∧ (x.1 * size + x.2) mod size = x.2.
Proof.
  intros [H1 H2]. split; [nia|]. split.
  - rewrite Nat.div_add_l by lia. rewrite Nat.div_small by done. lia.
  - rewrite Nat.add_comm, Nat.Div0.mod_add. by apply Nat.mod_small.
Qed.

Lemma makeUniquePuzzle_hole (random : nat → nat) (size : nat) (sol puzzle : grid)
    (cluesCount : nat) :
  supported size → solution size sol → cluesCount < size * size →
  makeUniquePuzzleFromSolution random sol cluesCount = Done puzzle →
  (∀ idx, head (shuffle random (seq 0 (size * size))) = Some idx →
          at_ puzzle (idx / size, idx mod size) = Some 0%Z) ∧
  0 < zeros puzzle ∧ puzzle ≠ sol.
Proof.
  intros Hs Hsol Hclues Hrun.
  assert (∃ idx, head (shuffle random (seq 0 (size * size))) = Some idx ∧
                 at_ puzzle (idx / size, idx mod size) = Some 0%Z) as [idx [Hhead Hz]].
  { unfold makeUniquePuzzleFromSolution in Hrun.
    apply bind_Done in Hrun as [st [Hdig E]]. injection E as <-.
    destruct Hsol as (Hsq & Hf & Hc). pose proof Hsq as [Hlen Hrows].
    rewrite Hlen, clone2D_id in Hdig.
    pose proof (shuffle_Forall random (λ idx, idx < size * size) (seq 0 (size * size)))
      as Hall.
    pose proof (Permutation_length (shuffle_perm random (seq 0 (size * size)))) as Hlength.
    rewrite length_seq in Hlength.
    destruct (shuffle random (seq 0 (size * size))) as [|idx rest]; simpl in Hlength.
    { destruct Hs; subst size; simpl in Hlength; lia. }
    exists idx. split; [done|].
    assert (idx < size * size) as Hidx.
    { assert (Forall (λ i, i < size * size) (idx :: rest)) as Hall'.
      { apply Hall. apply Forall_forall. intros i Hi%elem_of_seq. lia. }
      by apply Forall_cons in Hall' as [? _]. }
    destruct (index_inside size idx Hidx) as [Hr Hcc]. simpl in Hr, Hcc.
    simpl in Hdig. rewrite decide_False in Hdig by lia.
    rewrite get_cell in Hdig by lia. simpl in Hdig.
    destruct (Hf (idx / size, idx mod size)) as [v [Hv Hvr]]; [done|].
    unfold at_ in Hv. simpl in Hv. rewrite Hv in Hdig. simpl in Hdig.
    rewrite (proj2 (Z.eqb_neq v 0)) in Hdig by lia.
    destruct (put_inside size sol (idx / size) (idx mod size) 0 Hsq Hr Hcc) as [b1 Hput].
    rewrite Hput in Hdig. simpl in Hdig. rewrite clone2D_id in Hdig.
    rewrite (one_hole_count size sol b1 (idx / size, idx mod size) Hs
               (conj Hsq (conj Hf Hc)) (conj Hr Hcc) Hput) in Hdig.
    cbn [mbind outcome_mbind outcome_bind fst] in Hdig.
    rewrite decide_False in Hdig by (intros Hn; by apply Hn).
    apply dig_dug in Hdig. simpl in Hdig.
    eapply dug_zero; [done|]. apply put_Done in Hput as (_ & _ & Hcells).
    unfold at_. simpl. rewrite Hcells. by rewrite decide_True. }
  split; [intros idx' Hidx'; rewrite Hhead in Hidx'; by injection Hidx' as <-|].
  split; [by eapply zeros_pos|].
  intros ->. destruct Hsol as (Hsq & Hf & _).
  destruct (Hf (idx / size, idx mod size)) as [v [Hv Hvr]].
  - eapply cell_Some_inside; [done|]. apply Hz.
  - rewrite Hz in Hv. injection Hv as <-. lia.
Qed.

(** X3.  Asked for fewer clues than the grid has cells, the digger always
    empties the first cell it visits: the puzzle it returns on a solution
    has at least one empty cell and is never the solution itself. *)
Theorem digger_digs_first_cell (random : nat → nat) (size : nat) (sol puzzle : grid)
    (cluesCount : nat) :
  supported size → solution size sol → cluesCount < size * size →
  makeUniquePuzzleFromSolution random sol cluesCount = Done puzzle →
  (∀ idx, head (shuffle random (seq 0 (size * size))) = Some idx →
          at_ puzzle (idx / size, idx mod size) = Some 0%Z) ∧
  0 < zeros puzzle ∧ puzzle ≠ sol.
Proof. apply makeUniquePuzzle_hole. Qed.

Lemma digger_digs_first_cell_witness :
  (∀ idx, head (shuffle (λ _, 0) (seq 0 (6 * 6))) = Some idx →
          at_ PUZZLE_6 (idx / 6, idx mod 6) = Some 0%Z) ∧
  0 < zeros PUZZLE_6 ∧ PUZZLE_6 ≠ SOLUTION_6.
Proof.
  apply (digger_digs_first_cell (λ _, 0) 6 SOLUTION_6 PUZZLE_6 18).
  - by left.
  - apply SOLUTION_6_solution.
  - lia.
  - by vm_compute.
Defined.

(** X4.  When the digger returns a puzzle with fewer empty cells than it
    was allowed to dig, it is because nothing more can be dug: emptying
    any clue of the puzzle gives a grid on which the Solution Counter with
    limit 2 answers 2. *)
Theorem digger_stops_when_stuck (random : nat → nat) (size : nat) (sol puzzle g' : grid)
    (cluesCount : nat) (x : nat * nat) :
  supported size → solution size sol →
  makeUniquePuzzleFromSolution random sol cluesCount = Done puzzle →
  (Z.of_nat (zeros puzzle) < Z.of_nat (size * size) - Z.of_nat cluesCount)%Z →
  at_ puzzle x ≠ Some 0%Z → put puzzle x.1 x.2 0%Z = Done g' →
  countSolutions g' size 2 = Done (2, g').
Proof.
  intros Hs Hsol Hrun Hfew Hclue Hput.
  destruct (makeUniquePuzzle_spec random size sol cluesCount Hs)
    as [puzzle' (Hrun' & Hsq & _)];
    [apply Hsol|by intros a; apply filled_full, Hsol|].
  rewrite Hrun in Hrun'. injection Hrun' as <-.
  assert (inside size x) as Hx.
  { apply put_Done in Hput as ([v Hv] & _). by eapply cell_Some_inside. }
  assert (dug puzzle sol ∧ stuck size puzzle x) as [Hd Hstuck].
  { unfold makeUniquePuzzleFromSolution in Hrun.
    apply bind_Done in Hrun as [st [Hdig E]]. injection E as <-.
    destruct Hsol as (Hsqs & Hf & Hc). pose proof Hsqs as [Hlen Hrows].
    rewrite Hlen, clone2D_id in Hdig.
    assert (Forall (λ idx, idx < size * size) (shuffle random (seq 0 (size * size))))
      as Hall.
    { apply shuffle_Forall. apply Forall_forall. intros i Hi%elem_of_seq. lia. }
    destruct (dig_spec size (Z.of_nat (size * size) - Z.of_nat cluesCount) Hs _ (sol, 0) Hall)
      as [st' (Hdig' & _ & _ & Hzeros & _)];
      simpl; [done
             |apply countSolutions_full; [done|intros a; by apply filled_full|lia]
             |apply (zeros_full size); [done|intros a; by apply filled_full]
             |lia|].
    rewrite Hdig in Hdig'. injection Hdig' as <-.
    split; [by apply dig_dug in Hdig|].
    destruct (dig_stuck size _ sol Hs (conj Hsqs (conj Hf Hc)) _ (sol, 0) st Hall
                Hsqs (dug_refl sol) Hdig) as [Hmax|Hvisited]; [lia|].
    destruct (index_of_cell size x Hx) as (Hidx & Hdiv & Hmod).
    destruct (Hvisited (x.1 * size + x.2)) as [Hz|Hst].
    - rewrite shuffle_perm. apply elem_of_seq. lia.
    - rewrite Hdiv, Hmod in Hz. by destruct x.
    - rewrite Hdiv, Hmod in Hst. by destruct x. }
  pose proof (put_square _ _ _ _ _ _ Hsq Hput) as Hsq'.
  pose proof (dug_trans _ _ _ (dug_put _ _ _ _ Hput) Hd) as Hd'.
  pose proof (dug_entries _ _ _ Hd' (solution_entries _ _ Hsol)) as He'.
  pose proof (dug_consistent _ _ _ Hd' (proj2 (proj2 Hsol))) as Hc'.
  destruct (solution_count_exists size g' Hs Hsq' He' Hc') as [m (L & Hnd & Hlen & HL)].
  destruct (countSolutions_counts size 2 g' Hs Hsq') as [k [Hcount Hk]].
  rewrite Hcount, (Hk He' Hc' m (ex_intro _ L (conj Hnd (conj Hlen HL)))).
  destruct Hstuck as (h1 & h2 & Hne & Hboth).
  assert (∀ h, h = h1 ∨ h = h2 → h ∈ L) as Hin.
  { intros h Hh. apply HL. destruct (Hboth h Hh) as (? & ? & ? & Hext).
    split; [done|]. split; [done|]. split; [done|].
    intros y v Hv Hv0. apply put_Done in Hput as (_ & _ & Hcells).
    unfold at_ in Hv. rewrite Hcells in Hv.
    case_decide as Hy; [by injection Hv as <-|].
    apply Hext; [|done|done]. intros ->. by apply Hy. }
  pose proof (NoDup_two L h1 h2 (Hin h1 (or_introl eq_refl)) (Hin h2 (or_intror eq_refl)) Hne).
  do 2 f_equal. lia.
Qed.

Lemma digger_stops_when_stuck_witness :
  countSolutions (<[0 := [0; 0; 0; 0; 0; 0]%Z]> PUZZLE_6_DEEP) 6 2
  = Done (2, <[0 := [0; 0; 0; 0; 0; 0]%Z]> PUZZLE_6_DEEP).
Proof.
  apply (digger_stops_when_stuck (λ _, 0) 6 SOLUTION_6 PUZZLE_6_DEEP _ 0 (0, 0)).
  - by left.
  - apply SOLUTION_6_solution.
  - by vm_compute.
  - by vm_compute.
  - by vm_compute.
  - by vm_compute.
Defined.

(** ** The game as a whole *)

Lemma computeErrors_consistent (size : nat) (g : grid) :
  supported size → square size g →
  (consistent size g ↔ computeErrors g size = Done ∅).
Proof.
  intros Hs Hsq. split; [|by apply consistent_check].
  intros Hc. destruct (computeErrors_spec g size Hs Hsq) as [errs [-> Herrs]].
  f_equal. apply elem_of_equiv_empty_L. intros x Hx%Herrs. by apply (Hc x).
Qed.

Lemma no_zero_filled (size : nat) (g : grid) :
  square size g → entries size g → (∀ x, at_ g x ≠ Some 0%Z) → filled size g.
Proof.
  intros Hsq He Hnz [r c] [Hr Hc]. simpl in *.
  destruct (square_cell size g r c Hsq Hr Hc) as [v Hv]. exists v. split; [done|].
  pose proof (entries_cell size g (r, c) v He Hv). specialize (Hnz (r, c)).
  assert (v ≠ 0%Z) by (intros ->; by apply Hnz). lia.
Qed.

Lemma solution_no_zero (size : nat) (sol : grid) (x : nat * nat) :
  solution size sol → at_ sol x ≠ Some 0%Z.
Proof.
  intros (Hsq & Hf & _) Hz. pose proof (cell_Some_inside size sol _ _ _ Hsq Hz).
  by apply (filled_full size sol x Hf).
Qed.

(** What a returning call of [updateCell] has done: nothing, or the edit
    of a cell that is not a clue with the number the input stands for. *)
Lemma updateCell_cases (s s' : state) (row col : nat) (value : raw) :
  updateCell s row col value = Done s' →
  s' = s ∨
  (status s = Playing ∧ at_ (initialBoard s) (row, col) = Some 0%Z ∧
   ∃ num, parse (size s) value = Some num ∧ applyEdit s row col num = Done s').
Proof.
  unfold updateCell. case_decide as Hst; [intros [= <-]; by left|].
  case_decide as Hb; [intros [= <-]; by left|].
  intros H. apply bind_Done in H as [clue [Hclue H]].
  apply get_Done in Hclue as [_ Hclue].
  destruct (holds clue 0) eqn:Eh; simpl in H; [|invert H; by left].
  apply holds_true in Eh. subst clue.
  assert (status s = Playing) as Hplay by (by destruct (status s); try done; destruct Hst).
  destruct value as [|z|].
  - right. split; [done|]. split; [done|]. by exists 0%Z.
  - case_decide as Hz; [invert H; by left|]. right. split; [done|]. split; [done|].
    exists z. split; [|done]. simpl. rewrite decide_True; [done|lia].
  - invert H. by left.
Qed.

Lemma giveHint_frame (s s' : state) :
  giveHint s = Done s' →
  mode s' = mode s ∧ size s' = size s ∧ solutionBoard s' = solutionBoard s ∧
  initialBoard s' = initialBoard s ∧ board s' = board s ∧ status s' = status s ∧
  errors s' = errors s ∧ elapsed s' = elapsed s.
Proof.
  unfold giveHint. case_decide as H1; [by intros [= <-]|].
  case_decide as H2; [by intros [= <-]|]. case_decide as H3; [by intros [= <-]|].
  intros H. apply bind_Done in H as [[a|] [_ H]]; by invert H.
Qed.

Section Game.

Variables (size0 : nat) (mode0 : option string) (sol puzzle : grid).
Hypothesis game : setting size0 sol puzzle.

Lemma setting_puzzle : entries size0 puzzle ∧ consistent size0 puzzle.
Proof.
  destruct game as (Hs & Hsol & Hsq & Hd & _). split.
  - eapply dug_entries; [done|]. by apply solution_entries.
  - eapply dug_consistent; [done|]. apply Hsol.
Qed.

(** A board of the game without empty cell and without violation is the
    solution, and the solution is such a board. *)
Lemma won_iff_solution (g : grid) (errs : gset (nat * nat)) :
  square size0 g → entries size0 g → extends puzzle g →
  computeErrors g size0 = Done errs →
  (∀ x, at_ g x ≠ Some 0%Z) ∧ errs = ∅ ↔ g = sol.
Proof.
  destruct game as (Hs & Hsol & Hsqp & Hd & Hne & Huniq).
  intros Hsq He Hext Hrun. split.
  - intros [Hnz ->]. apply Huniq.
    split; [done|]. split; [by apply no_zero_filled|]. split; [|done].
    by apply computeErrors_consistent.
  - intros ->. split; [intros x; by eapply solution_no_zero|].
    destruct Hsol as (_ & _ & Hc).
    apply (computeErrors_consistent size0 sol Hs Hsq) in Hc. congruence.
Qed.

Lemma parse_range (size : nat) (value : raw) (num : Z) :
  parse size value = Some num → (0 ≤ num ≤ Z.of_nat size)%Z.
Proof.
  destruct value as [|z|]; simpl; [intros [= <-]; lia| |done].
  case_decide; [intros [= <-]; lia|done].
Qed.

Lemma applyEdit_inv (s s' : state) (row col : nat) (num : Z) :
  game_inv size0 mode0 sol puzzle s →
  at_ puzzle (row, col) = Some 0%Z → (0 ≤ num ≤ Z.of_nat size0)%Z →
  applyEdit s row col num = Done s' →
  game_inv size0 mode0 sol puzzle s'.
Proof.
  intros (Hm & Hsz & Hso & Hin & Hsq & He & Hext & Herr & Hidle & Hwon) Hclue Hnum Happly.
  unfold applyEdit in Happly. rewrite clone2D_id, Hsz in Happly.
  apply bind_Done in Happly as [next [Hput Happly]].
  apply bind_Done in Happly as [errs [Hrun Happly]]. injection Happly as <-.
  unfold game_inv. simpl.
  pose proof (put_square _ _ _ _ _ _ Hsq Hput) as Hsq'.
  pose proof (entries_put _ _ _ _ _ _ He Hnum Hput) as He'.
  assert (extends puzzle next) as Hext'.
  { intros [r c] v Hv Hv0. pose proof (put_Done _ _ _ _ _ Hput) as (_ & _ & Hcells).
    unfold at_. simpl. rewrite Hcells. rewrite decide_False.
    - by apply (Hext (r, c)).
    - intros [-> ->]. rewrite Hclue in Hv. by injection Hv as <-. }
  repeat (split; [done|]).
  pose proof (won_iff_solution next errs Hsq' He' Hext' Hrun) as Hiff.
  assert (hasEmpty next = false ↔ ∀ x, at_ next x ≠ Some 0%Z) as Hfull.
  { rewrite <- not_true_iff_false, hasEmpty_spec. split.
    - intros Hno x Hx. apply Hno. eauto.
    - intros Hall [x Hx]. by apply (Hall x). }
  assert (negb (hasEmpty next) && bool_decide (errs = ∅) = true ↔ next = sol)
    as Hb.
  { by rewrite andb_true_iff, negb_true_iff, bool_decide_eq_true, Hfull. }
  destruct (negb (hasEmpty next) && bool_decide (errs = ∅)).
  - split; [done|]. split; [intros _; by apply Hb|done].
  - split; [done|]. split; [done|]. intros E. apply Hb in E. discriminate.
Qed.

Lemma act_inv (s : state) (a : action) :
  game_inv size0 mode0 sol puzzle s → game_inv size0 mode0 sol puzzle (act s a).
Proof.
  intros Hinv. destruct a as [row col value| |]; simpl.
  - unfold edit. simpl.
    destruct (updateCell s row col value) as [s'| | |] eqn:E; try done.
    apply updateCell_cases in E as [->|(Hplay & Hclue & num & Hparse & Happly)]; [done|].
    destruct Hinv as (Hm & Hsz & Hso & Hin & Hrest).
    rewrite Hin in Hclue. rewrite Hsz in Hparse.
    eapply applyEdit_inv; [|done|by eapply parse_range|done].
    by repeat (split; [done|]).
  - destruct (giveHint s) as [s'| | |] eqn:E; try done.
    apply giveHint_frame in E as (E1 & E2 & E3 & E4 & E5 & E6 & E7 & E8).
    unfold game_inv. by rewrite E1, E2, E3, E4, E5, E6, E7.
  - unfold resetGame. case_decide as Hempty; [done|].
    destruct Hinv as (Hm & Hsz & Hso & Hin & Hsq & He & Hext & Herr & Hidle & Hwon).
    destruct game as (Hs & Hsol & Hsqp & Hd & Hne & Huniq).
    destruct setting_puzzle as [Hep Hcp].
    unfold game_inv. simpl. rewrite clone2D_id, Hin.
    repeat (split; [done|]).
    split; [by intros x v Hv _|].
    split; [by apply computeErrors_consistent|].
    split; [done|]. split; [done|]. intros E. by destruct Hne.
Qed.

Lemma run_inv (acts : list action) :
  ∀ s, game_inv size0 mode0 sol puzzle s →
       game_inv size0 mode0 sol puzzle (foldl act s acts).
Proof.
  induction acts as [|a acts IH]; intros s Hinv; simpl; [done|].
  by apply IH, act_inv.
Qed.

End Game.

(** The state [startNewGame] builds opens such a game. *)
Lemma startNewGame_setting (random : nat → nat) (s0 s : state) (newMode : string) :
  startNewGame random s0 newMode = Done s →
  setting (size s) (solutionBoard s) (initialBoard s) ∧
  game_inv (size s) (Some newMode) (solutionBoard s) (initialBoard s) s ∧
  board s = initialBoard s ∧ status s = Playing ∧ errors s = ∅ ∧
  elapsed s = 0 ∧ hintCell s = None.
Proof.
  intros Hstart. unfold startNewGame in Hstart.
  apply bind_Done in Hstart as [puzzle [Hrun E]]. injection E as <-.
  cbn [size solutionBoard initialBoard board status errors elapsed hintCell mode].
  rewrite !clone2D_id.
  assert (setting (if bool_decide (newMode = "easy"%string) then 6 else 9)
            (if bool_decide (newMode = "easy"%string) then SOLUTION_6 else SOLUTION_9)
            puzzle) as Hset.
  { case_bool_decide.
    - destruct (makeUniquePuzzle_completion random 6 SOLUTION_6 puzzle 18) as [Hd Hu];
        [by left|apply SOLUTION_6_solution|done|].
      destruct (makeUniquePuzzle_hole random 6 SOLUTION_6 puzzle 18) as (_ & _ & Hne);
        [by left|apply SOLUTION_6_solution|simpl; lia|done|].
      destruct (makeUniquePuzzle_spec random 6 SOLUTION_6 18) as [p (Hp & Hsq & _)];
        [by left|apply SOLUTION_6_square
        |intros a; apply filled_full, SOLUTION_6_solution|].
      rewrite Hrun in Hp. injection Hp as <-.
      split; [by left|]. split; [apply SOLUTION_6_solution|]. done.
    - destruct (makeUniquePuzzle_completion random 9 SOLUTION_9 puzzle 30) as [Hd Hu];
        [by right|apply SOLUTION_9_solution|done|].
      destruct (makeUniquePuzzle_hole random 9 SOLUTION_9 puzzle 30) as (_ & _ & Hne);
        [by right|apply SOLUTION_9_solution|simpl; lia|done|].
      destruct (makeUniquePuzzle_spec random 9 SOLUTION_9 30) as [p (Hp & Hsq & _)];
        [by right|apply SOLUTION_9_square
        |intros a; apply filled_full, SOLUTION_9_solution|].
      rewrite Hrun in Hp. injection Hp as <-.
      split; [by right|]. split; [apply SOLUTION_9_solution|]. done. }
  split; [done|]. split; [|done].
  pose proof Hset as (Hs & Hsol & Hsqp & Hd & Hne & Huniq).
  destruct (setting_puzzle _ _ _ Hset) as [Hep Hcp].
  unfold game_inv. cbn [size solutionBoard initialBoard board status errors mode].
  repeat (split; [done|]).
  split; [by intros x v Hv _|].
  split; [by apply computeErrors_consistent|].
  split; [done|]. split; [done|]. intros E. by destruct Hne.
Qed.

(** X5.  From [startNewGame] on, whatever edits, hint requests and resets
    follow, the mode, the size, the solution board and the initial board
    stay what they were, the working board stays a [size] × [size] matrix
    with entries in [[0, size]], the status is never "idle" again, and
    the violation set held by the store is the one [computeErrors] gives
    for the board. *)
Theorem game_keeps_errors_in_step (random : nat → nat) (s0 s : state) (newMode : string)
    (acts : list action) :
  startNewGame random s0 newMode = Done s →
  mode (foldl act s acts) = Some newMode ∧
  size (foldl act s acts) = size s ∧
  solutionBoard (foldl act s acts) = solutionBoard s ∧
  initialBoard (foldl act s acts) = initialBoard s ∧
  square (size s) (board (foldl act s acts)) ∧
  entries (size s) (board (foldl act s acts)) ∧
  status (foldl act s acts) ≠ Idle ∧
  computeErrors (board (foldl act s acts)) (size (foldl act s acts))
  = Done (errors (foldl act s acts)).
Proof.
  intros Hstart. apply startNewGame_setting in Hstart as (Hset & Hinv & _).
  apply (run_inv _ _ _ _ Hset acts) in Hinv
    as (Hm & Hsz & Hso & Hin & Hsq & He & Hext & Herr & Hidle & Hwon).
  rewrite Hsz. done.
Qed.

Lemma game_keeps_errors_in_step_witness :
  mode (foldl act GAME_6 [Edit 0 1 (RawInteger 1); Hint; Reset]) = Some "easy"%string ∧
  size (foldl act GAME_6 [Edit 0 1 (RawInteger 1); Hint; Reset]) = size GAME_6 ∧
  solutionBoard (foldl act GAME_6 [Edit 0 1 (RawInteger 1); Hint; Reset])
  = solutionBoard GAME_6 ∧
  initialBoard (foldl act GAME_6 [Edit 0 1 (RawInteger 1); Hint; Reset])
  = initialBoard GAME_6 ∧
  square (size GAME_6) (board (foldl act GAME_6 [Edit 0 1 (RawInteger 1); Hint; Reset])) ∧
  entries (size GAME_6) (board (foldl act GAME_6 [Edit 0 1 (RawInteger 1); Hint; Reset])) ∧
  status (foldl act GAME_6 [Edit 0 1 (RawInteger 1); Hint; Reset]) ≠ Idle ∧
  computeErrors (board (foldl act GAME_6 [Edit 0 1 (RawInteger 1); Hint; Reset]))
    (size (foldl act GAME_6 [Edit 0 1 (RawInteger 1); Hint; Reset]))
  = Done (errors (foldl act GAME_6 [Edit 0 1 (RawInteger 1); Hint; Reset])).
Proof.
  apply (game_keeps_errors_in_step (λ _, 0) IDLE GAME_6 "easy").
  apply GAME_6_started.
Defined.

(** X6.  From [startNewGame] on, whatever edits, hint requests and resets
    follow, the status is "completed" exactly when the working board is
    the solution board: a win is never flagged on another grid, and the
    solution is always flagged. *)
Theorem completed_iff_solution (random : nat → nat) (s0 s : state) (newMode : string)
    (acts : list action) :
  startNewGame random s0 newMode = Done s →
  status (foldl act s acts) = Completed ↔
  board (foldl act s acts) = solutionBoard (foldl act s acts).
Proof.
  intros Hstart. apply startNewGame_setting in Hstart as (Hset & Hinv & _).
  apply (run_inv _ _ _ _ Hset acts) in Hinv
    as (Hm & Hsz & Hso & Hin & Hsq & He & Hext & Herr & Hidle & Hwon).
  by rewrite Hso.
Qed.

Lemma completed_iff_solution_witness :
  status (foldl act GAME_6 [Edit 0 1 (RawInteger 2); Hint]) = Completed ↔
  board (foldl act GAME_6 [Edit 0 1 (RawInteger 2); Hint])
  = solutionBoard (foldl act GAME_6 [Edit 0 1 (RawInteger 2); Hint]).
Proof.
  apply (completed_iff_solution (λ _, 0) IDLE GAME_6 "easy").
  apply GAME_6_started.
Defined.

(** X7.  [resetGame] undoes a whole game: after [startNewGame], whatever
    edits, hint requests and resets have followed, [resetGame] gives back
    the very state [startNewGame] built. *)
Theorem resetGame_restarts (random : nat → nat) (s0 s : state) (newMode : string)
    (acts : list action) :
  startNewGame random s0 newMode = Done s →
  resetGame (foldl act s acts) = s.
Proof.
  intros Hstart.
  apply startNewGame_setting in Hstart
    as (Hset & Hinv & Hboard & Hstatus & Herrors & Helapsed & Hhint).
  pose proof Hinv as (Hm0 & _).
  apply (run_inv _ _ _ _ Hset acts) in Hinv
    as (Hm & Hsz & Hso & Hin & Hsq & He & Hext & Herr & Hidle & Hwon).
  unfold resetGame. rewrite decide_False.
  - rewrite Hm, Hsz, Hso, Hin, clone2D_id. destruct s. simpl in *. by subst.
  - rewrite Hin. destruct Hset as (Hs & _ & [Hl _] & _).
    destruct Hs as [E|E]; rewrite E in Hl; by destruct (initialBoard s).
Qed.

Lemma resetGame_restarts_witness :
  resetGame (foldl act GAME_6 [Edit 0 1 (RawInteger 2); Hint; Edit 2 2 (RawInteger 6)])
  = GAME_6.
Proof.
  apply (resetGame_restarts (λ _, 0) IDLE GAME_6 "easy").
  apply GAME_6_started.
Defined.

(** X8.  Clearing undoes a write.  In a game being played on a board of a
    supported size, if an accepted input is written in an empty cell that
    is not a clue and the game is still being played afterwards, then
    clearing that cell with the empty string gives back the board and the
    violation set as they were before the write. *)
Theorem updateCell_clear_undoes (s s1 : state) (row col : nat) (value : raw) (num : Z) :
  well_formed s → status s = Playing →
  at_ (initialBoard s) (row, col) = Some 0%Z → at_ (board s) (row, col) = Some 0%Z →
  computeErrors (board s) (size s) = Done (errors s) →
  parse (size s) value = Some num →
  updateCell s row col value = Done s1 → status s1 = Playing →
  ∃ s2, updateCell s1 row col RawEmpty = Done s2 ∧
        board s2 = board s ∧ errors s2 = errors s ∧ status s2 = Playing ∧
        hintCell s2 = None.
Proof.
  intros (Hs & Hsqi & Hsq) Hplay Hclue Hcell Herr Hparse Hrun Hplay1.
  assert (board s ≠ []) as Hne.
  { destruct Hsq as [Hl _], Hs as [E|E]; rewrite E in Hl; by destruct (board s). }
  rewrite (updateCell_accepts s row col value num Hplay Hne Hclue Hparse) in Hrun.
  unfold applyEdit in Hrun. rewrite clone2D_id in Hrun.
  apply bind_Done in Hrun as [next [Hput Hrun]].
  apply bind_Done in Hrun as [errs [_ Hrun]]. injection Hrun as <-.
  cbn [status] in Hplay1.
  rewrite (updateCell_accepts _ row col RawEmpty 0%Z); cbn [status board initialBoard size];
    [|done| |done|done].
  2: { apply put_Done in Hput as (_ & Hl & _). intros ->. simpl in Hl.
       by destruct (board s). }
  unfold applyEdit. cbn [board size mode solutionBoard initialBoard elapsed].
  rewrite clone2D_id.
  destruct (cell_Some_inside _ _ _ _ _ Hsq Hcell) as [Hr Hc].
  destruct (put_inside (size s) next row col 0 (put_square _ _ _ _ _ _ Hsq Hput) Hr Hc)
    as [back Hback].
  rewrite Hback. pose proof (put_undo _ _ _ _ _ _ Hcell Hput Hback) as ->.
  cbn [mbind outcome_mbind outcome_bind]. rewrite Herr.
  cbn [mbind outcome_mbind outcome_bind]. eexists. split; [reflexivity|].
  cbn [board errors status hintCell].
  split; [done|]. split; [done|]. split; [|done].
  rewrite (proj2 (hasEmpty_spec (board s))); [done|]. eauto.
Qed.

Lemma updateCell_clear_undoes_witness :
  ∃ s2, updateCell (edit GAME_6 (0, 1, RawInteger 1)) 0 1 RawEmpty = Done s2 ∧
        board s2 = board GAME_6 ∧ errors s2 = errors GAME_6 ∧ status s2 = Playing ∧
        hintCell s2 = None.
Proof.
  apply (updateCell_clear_undoes GAME_6 (edit GAME_6 (0, 1, RawInteger 1)) 0 1
           (RawInteger 1) 1%Z).
  - apply GAME_6_well_formed.
  - reflexivity.
  - reflexivity.
  - reflexivity.
  - by vm_compute.
  - reflexivity.
  - by vm_compute.
  - by vm_compute.
Defined.

(** ** Hints and the constraint checker *)

(** A value fits in a cell exactly when no other cell of its row, column
    or box holds it. *)
Lemma fits_iff (size : nat) (g : grid) (a : nat * nat) (v : nat) :
  supported size → square size g → inside size a → 1 ≤ v →
  fits size g a v ↔
  ¬ ∃ y, inside size y ∧ y ≠ a ∧ related size a y ∧ at_ g y = Some (Z.of_nat v).
Proof.
  intros Hs Hsq Ha Hv. destruct Ha as [Hr Hc].
  destruct (put_inside size g a.1 a.2 (Z.of_nat v) Hsq Hr Hc) as [g' Hput].
  destruct (computeErrors_spec g' size Hs (put_square _ _ _ _ _ _ Hsq Hput))
    as [errs [Hrun Herrs]].
  pose proof (put_Done _ _ _ _ _ Hput) as (_ & _ & Hcells).
  assert (at_ g' a = Some (Z.of_nat v)) as Ea.
  { unfold at_. rewrite Hcells. by rewrite decide_True. }
  assert (∀ y, y ≠ a → at_ g' y = at_ g y) as Ey.
  { intros y Hy. unfold at_. rewrite Hcells. rewrite decide_False; [done|].
    intros [? ?]. apply Hy. destruct y, a. simpl in *. by subst. }
  assert (a ∈ errs ↔ ∃ y, inside size y ∧ y ≠ a ∧ related size a y ∧
                          at_ g y = Some (Z.of_nat v)) as Hiff.
  { rewrite Herrs. unfold violates. rewrite Ea. split.
    - intros (_ & _ & y & Hy & Hne & Hrel & Hval). exists y. rewrite <- Ey; done.
    - intros (y & Hy & Hne & Hrel & Hval).
      split; [done|]. split; [intros [= ?]; lia|]. exists y. rewrite Ey; done. }
  rewrite <- Hiff. unfold fits. split.
  - intros (g1 & errs1 & Hput1 & Hrun1 & Hnot). rewrite Hput in Hput1.
    injection Hput1 as <-. rewrite Hrun in Hrun1. by injection Hrun1 as <-.
  - intros Hnot. exists g', errs. done.
Qed.

(** X9.  A hint can be trusted: on a board of a supported size whose
    nonzero cells all agree with a solution, an empty cell with a single
    fitting value can only take the value the solution has there. *)
Theorem single_candidate_is_solution (size : nat) (g sol : grid) (a : nat * nat) :
  supported size → square size g → solution size sol → extends g sol →
  inside size a → single_candidate size g a →
  ∃ v, at_ sol a = Some (Z.of_nat v) ∧ 1 ≤ v ≤ size ∧ fits size g a v ∧
       ∀ w, 1 ≤ w ≤ size → fits size g a w → w = v.
Proof.
  intros Hs Hsq (Hsqs & Hf & Hc) Hext Ha (Hz & v0 & Hv0 & Hfit0 & Huniq).
  destruct (Hf a Ha) as [w [Hw Hwr]].
  assert (fits size g a (Z.to_nat w)) as Hfit.
  { apply fits_iff; [done|done|done|lia|].
    intros (y & Hy & Hne & Hrel & Hval). rewrite Z2Nat.id in Hval by lia.
    apply (Hc a). split; [done|]. split; [rewrite Hw; intros [= ->]; lia|].
    exists y. split; [done|]. split; [done|]. split; [done|].
    rewrite Hw. apply Hext; [done|lia]. }
  assert (Z.to_nat w = v0) as <- by (apply Huniq; [lia|done]).
  exists (Z.to_nat w). rewrite Z2Nat.id by lia. done.
Qed.

Lemma single_candidate_is_solution_witness :
  ∃ v, at_ SOLUTION_6 (0, 5) = Some (Z.of_nat v) ∧ 1 ≤ v ≤ 6 ∧ fits 6 PUZZLE_6 (0, 5) v ∧
       ∀ w, 1 ≤ w ≤ 6 → fits 6 PUZZLE_6 (0, 5) w → w = v.
Proof.
  apply (single_candidate_is_solution 6 PUZZLE_6 SOLUTION_6 (0, 5)).
  - by left.
  - apply PUZZLE_6_square.
  - apply SOLUTION_6_solution.
  - apply dug_extends.
    apply (makeUniquePuzzle_completion (λ _, 0) 6 SOLUTION_6 PUZZLE_6 18);
      [by left|apply SOLUTION_6_solution|by vm_compute].
  - split; simpl; lia.
  - split; [reflexivity|]. exists 6. split; [lia|]. split.
    + apply fitsb_fits. by vm_compute.
    + intros w Hw Hfit%fitsb_fits.
      assert (w = 1 ∨ w = 2 ∨ w = 3 ∨ w = 4 ∨ w = 5 ∨ w = 6) as Hcases by lia.
      destruct Hcases as [->|[->|[->|[->|[->| ->]]]]]; try done;
        by vm_compute in Hfit.
Defined.

(** X10.  The constraint checker and the hint selector agree: on a board
    of a supported size, for a cell that does not hold the value itself
    and a value of at least 1, [isSafe] answers [true] exactly when the
    value, written in the cell, leaves the cell out of the violation set
    of [computeErrors]. *)
Theorem isSafe_agrees_with_computeErrors (size : nat) (g : grid) (a : nat * nat) (v : nat) :
  supported size → square size g → inside size a → 1 ≤ v →
  at_ g a ≠ Some (Z.of_nat v) →
  isSafe g a.1 a.2 (Z.of_nat v) size = Done (fitsb size g a v).
Proof.
  intros Hs Hsq Ha Hv Hcell.
  destruct (isSafe_related g size a.1 a.2 (Z.of_nat v) Hs Hsq) as [safe [Hrun Hsafe]];
    [by destruct a|].
  rewrite Hrun. f_equal.
  pose proof (fits_iff size g a v Hs Hsq Ha Hv) as Hfits.
  assert ((∃ y, inside size y ∧ related size (a.1, a.2) y ∧ at_ g y = Some (Z.of_nat v)) ↔
          ∃ y, inside size y ∧ y ≠ a ∧ related size a y ∧ at_ g y = Some (Z.of_nat v))
    as Hsame.
  { destruct a as [r c]. simpl. split.
    - intros (y & Hy & Hrel & Hval). exists y. split; [done|].
      split; [by intros ->|done].
    - intros (y & Hy & Hne & Hrel & Hval). exists y. done. }
  rewrite Hsame in Hsafe.
  destruct safe; destruct (fitsb size g a v) eqn:E; try done.
  - assert (fits size g a v) as Hfit.
    { apply Hfits. intros Hy. apply Hsafe in Hy. discriminate. }
    apply fitsb_fits in Hfit. congruence.
  - apply fitsb_fits, Hfits in E. destruct E. by apply Hsafe.
Qed.

Lemma isSafe_agrees_with_computeErrors_witness :
  isSafe PUZZLE_6 0 5 6%Z 6 = Done (fitsb 6 PUZZLE_6 (0, 5) 6).
Proof.
  apply (isSafe_agrees_with_computeErrors 6 PUZZLE_6 (0, 5) 6).
  - by left.
  - apply PUZZLE_6_square.
  - split; simpl; lia.
  - lia.
  - by vm_compute.
Defined.

(** ** The counter on any grid *)

Section Bound.

Variables (size limit row col : nat).
Variable rec : grid * nat → outcome (grid * nat).
Hypothesis rec_bound : ∀ st st', st.2 ≤ limit → rec st = Done st' → st.2 ≤ st'.2 ≤ limit.

Lemma tryCandidates_bound (nums : list nat) :
  ∀ st st', st.2 ≤ limit →
    tryCandidates rec size limit row col nums st = Done st' → st.2 ≤ st'.2 ≤ limit.
Proof.
  induction nums as [|num rest IH]; intros st st' Hle; simpl.
  - intros [= <-]. lia.
  - intros H. apply bind_Done in H as [safe [_ H]].
    destruct safe; [|by apply IH].
    apply bind_Done in H as [b1 [_ H]].
    apply bind_Done in H as [st1 [Hrec H]].
    apply bind_Done in H as [b2 [_ H]].
    apply rec_bound in Hrec; [|done]. simpl in Hrec.
    case_decide as Hlim; [injection H as <-; simpl; lia|].
    apply IH in H; simpl in *; lia.
Qed.

End Bound.

Lemma backtrack_bound (size limit fuel : nat) :
  ∀ st st', st.2 ≤ limit → backtrack fuel size limit st = Done st' →
            st.2 ≤ st'.2 ≤ limit.
Proof.
  induction fuel as [|fuel IH]; intros st st' Hle; simpl; [done|].
  case_decide as Hlim; [intros [= <-]; lia|].
  intros H. apply bind_Done in H as [found [_ H]].
  destruct found as [[row col]|]; [|injection H as <-; simpl; lia].
  by eapply tryCandidates_bound.
Qed.

(** X11.  Whatever the grid, well formed or not, with conflicts or not,
    a call of [countSolutions] that returns gives a count of at most
    [limit]. *)
Theorem countSolutions_at_most_limit (g g' : grid) (size limit n : nat) :
  countSolutions g size limit = Done (n, g') → n ≤ limit.
Proof.
  intros H. unfold countSolutions in H. apply bind_Done in H as [st [Hrun H]].
  injection H as <- <-.
  apply backtrack_bound in Hrun; simpl in *; lia.
Qed.

Lemma countSolutions_at_most_limit_witness :
  countSolutions (replicate 6 (replicate 6 0%Z)) 6 2
  = Done (2, replicate 6 (replicate 6 0%Z)) ∧ 2 ≤ 2.
Proof.
  split; [by vm_compute|].
  apply (countSolutions_at_most_limit (replicate 6 (replicate 6 0%Z))
           (replicate 6 (replicate 6 0%Z)) 6 2 2).
  by vm_compute.
Defined.

(** X12.  The counter does not check the cells that are already filled: on
    a [size] × [size] grid without empty cell it answers 1 for any limit
    above 0, whatever the grid holds; when the grid has a conflict, that
    is 1 for a grid that has no completion at all. *)
Theorem countSolutions_trusts_full_grid (g : grid) (size limit : nat) :
  square size g → (∀ a, inside size a → at_ g a ≠ Some 0%Z) → 0 < limit →
  countSolutions g size limit = Done (1, g) ∧
  (¬ consistent size g → ∀ h, ¬ is_completion size g h).
Proof.
  intros Hsq Hfull Hlimit. split; [by apply countSolutions_full|].
  intros Hbad h (Hsqh & _ & Hc & Hext). apply Hbad.
  assert (h = g) as ->; [|done].
  apply (grid_ext size); [done..|]. intros r c Hr Hcc.
  destruct (square_cell size g r c Hsq Hr Hcc) as [v Hv]. rewrite Hv.
  apply (Hext (r, c)); [done|]. intros ->. by apply (Hfull (r, c)).
Qed.

Lemma countSolutions_trusts_full_grid_witness :
  countSolutions CLASH_6 6 2 = Done (1, CLASH_6) ∧
  (¬ consistent 6 CLASH_6 → ∀ h, ¬ is_completion 6 CLASH_6 h).
Proof.
  apply (countSolutions_trusts_full_grid CLASH_6 6 2).
  - apply (bool_decide_unpack _). by vm_compute.
  - intros a Ha. apply (filled_full 6); [|done].
    apply filled_check; apply (bool_decide_unpack _); by vm_compute.
  - lia.
Defined.

(** ** What an edit leaves alone *)

(** In a state whose boards are matrices of a supported size, a call of
    [updateCell] on a row of the board returns. *)
Lemma updateCell_returns (s : state) (row col : nat) (value : raw) :
  well_formed s → row < size s → ∃ s', updateCell s row col value = Done s'.
Proof.
  intros (Hs & Hinit & Hboard) Hrow. unfold updateCell.
  case_decide as Hst; [eauto|]. case_decide as Hb; [eauto|].
  rewrite get_cell by (destruct Hinit as [-> _]; done).
  cbn [mbind outcome_mbind outcome_bind].
  destruct (cell (initialBoard s) row col) as [clue|] eqn:Hclue; simpl; [|eauto].
  destruct (Z.eqb clue 0) eqn:Ez; simpl; [|eauto].
  apply cell_Some_inside with (size := size s) in Hclue as [_ Hcol]; [|done].
  assert (∀ num, ∃ s', applyEdit s row col num = Done s') as Happly.
  { intros num. unfold applyEdit. rewrite clone2D_id.
    destruct (put_inside (size s) (board s) row col num Hboard Hrow Hcol) as [next Hput].
    rewrite Hput. cbn [mbind outcome_mbind outcome_bind].
    destruct (computeErrors_spec next (size s) Hs (put_square _ _ _ _ _ _ Hboard Hput))
      as [errs [-> _]].
    cbn [mbind outcome_mbind outcome_bind]. eauto. }
  destruct value as [|z|]; [apply Happly| |eauto].
  case_decide; [eauto|apply Happly].
Qed.

(** X13.  In a state whose boards are matrices of a supported size, a call
    of [updateCell] on a row of the board returns, no call lengthens a row,
    and a call that returns leaves the mode, the size, the solution board,
    the initial board and the elapsed time as they were, and changes no
    cell of the board other than the one it is called on. *)
Theorem updateCell_touches_one_cell (s : state) (row col : nat) (value : raw) :
  well_formed s →
  (row < size s → ∃ s', updateCell s row col value = Done s') ∧
  updateCell s row col value ≠ Grows ∧
  ∀ s', updateCell s row col value = Done s' →
    mode s' = mode s ∧ size s' = size s ∧ solutionBoard s' = solutionBoard s ∧
    initialBoard s' = initialBoard s ∧ elapsed s' = elapsed s ∧
    length (board s') = length (board s) ∧
    ∀ x, x ≠ (row, col) → at_ (board s') x = at_ (board s) x.
Proof.
  intros Hwf. split; [by apply updateCell_returns|]. split.
  - destruct (decide (row < size s)) as [Hrow|Hrow].
    + destruct (updateCell_returns s row col value Hwf Hrow) as [s' ->]. done.
    + destruct Hwf as (_ & [Hlen _] & _). unfold updateCell.
      case_decide; [done|]. case_decide; [done|].
      unfold get. rewrite lookup_ge_None_2 by lia. done.
  - intros s' H.
    apply updateCell_cases in H as [->|(_ & _ & num & _ & Happly)]; [done|].
    unfold applyEdit in Happly. rewrite clone2D_id in Happly.
    apply bind_Done in Happly as [next [Hput Happly]].
    apply bind_Done in Happly as [errs [_ Happly]]. injection Happly as <-. simpl.
    apply put_Done in Hput as (_ & Hlen & Hcells).
    repeat (split; [done|]). intros [r c] Hne. unfold at_. simpl. rewrite Hcells.
    rewrite decide_False; [done|]. intros [-> ->]. done.
Qed.

Lemma updateCell_touches_one_cell_witness :
  updateCell GAME_6 0 1 (RawInteger 1) = Done (edit GAME_6 (0, 1, RawInteger 1)) ∧
  at_ (board (edit GAME_6 (0, 1, RawInteger 1))) (0, 1) ≠ at_ (board GAME_6) (0, 1) ∧
  (0 < size GAME_6 → ∃ s', updateCell GAME_6 0 1 (RawInteger 1) = Done s') ∧
  updateCell GAME_6 0 1 (RawInteger 1) ≠ Grows ∧
  ∀ s', updateCell GAME_6 0 1 (RawInteger 1) = Done s' →
    mode s' = mode GAME_6 ∧ size s' = size GAME_6 ∧
    solutionBoard s' = solutionBoard GAME_6 ∧
    initialBoard s' = initialBoard GAME_6 ∧ elapsed s' = elapsed GAME_6 ∧
    length (board s') = length (board GAME_6) ∧
    ∀ x, x ≠ (0, 1) → at_ (board s') x = at_ (board GAME_6) x.
Proof.
  split; [by vm_compute|]. split; [by vm_compute|].
  apply (updateCell_touches_one_cell GAME_6 0 1 (RawInteger 1)).
  apply GAME_6_well_formed.
Defined.

(** ** The boxes *)

(** X14.  For the two supported sizes the block dimensions multiply to
    the size, and the blocks [computeErrors] walks through tile the grid:
    every cell of the grid lies in exactly one of them, and every block
    has [size] cells, all of them cells of the grid. *)
Theorem blocks_tile_the_grid (size : nat) (x : nat * nat) :
  supported size → inside size x →
  (getBlockDimensions size).1 * (getBlockDimensions size).2 = size ∧
  ∃ cells, cells ∈ block_groups size ∧ x ∈ cells ∧
           length cells = size ∧ (∀ y, y ∈ cells → inside size y) ∧
           ∀ cells', cells' ∈ block_groups size → x ∈ cells' → cells' = cells.
Proof.
  intros Hs Hx. split; [by destruct Hs as [-> | ->]|].
  exists (block_cells (boxOrigin size x).1 (boxOrigin size x).2
            (getBlockDimensions size).1 (getBlockDimensions size).2).
  split; [apply elem_of_block_groups; eauto|].
  split; [by apply block_cells_origin|]. split; [|split].
  - unfold block_cells. generalize (boxOrigin size x).1 (boxOrigin size x).2.
    intros sr sc. destruct Hs as [-> | ->];
      rewrite ?getBlockDimensions_6, ?getBlockDimensions_9; reflexivity.
  - intros y Hy. by eapply block_inside.
  - intros cells' [a [Ha ->]]%elem_of_block_groups Hin; [|done].
    apply block_cells_origin in Hin; [|done]. by rewrite Hin.
Qed.

Lemma blocks_tile_the_grid_witness :
  (getBlockDimensions 6).1 * (getBlockDimensions 6).2 = 6 ∧
  ∃ cells, cells ∈ block_groups 6 ∧ (3, 4) ∈ cells ∧
           length cells = 6 ∧ (∀ y, y ∈ cells → inside 6 y) ∧
           ∀ cells', cells' ∈ block_groups 6 → (3, 4) ∈ cells' → cells' = cells.
Proof.
  apply (blocks_tile_the_grid 6 (3, 4)).
  - by left.
  - split; simpl; lia.
Defined.

(** ** Violations come in pairs *)

(** X15.  On a board of a supported size a cell is never reported alone:
    every cell of the violation set has another cell of the set in its
    row, column or box that holds the same value, so that a set that is
    not empty has two cells at least. *)
Theorem computeErrors_marks_both (g : grid) (size : nat) (errs : gset (nat * nat))
    (x : nat * nat) :
  supported size → square size g → computeErrors g size = Done errs → x ∈ errs →
  ∃ y, y ∈ errs ∧ y ≠ x ∧ related size x y ∧ at_ g y = at_ g x.
Proof.
  intros Hs Hsq Hrun Hx.
  destruct (computeErrors_spec g size Hs Hsq) as [errs' [Hrun' Herrs]].
  rewrite Hrun in Hrun'. injection Hrun' as <-.
  apply Herrs in Hx as (Hin & Hnz & y & Hy & Hne & Hrel & Hv).
  exists y. split; [|done]. apply Herrs. split; [done|]. split; [by rewrite Hv|].
  exists x. split; [done|]. split; [by intros ->|]. split; [by apply related_sym|done].
Qed.

Lemma computeErrors_marks_both_witness :
  ∃ y, y ∈ ({[ (0, 0); (0, 1); (5, 1) ]} : gset (nat * nat)) ∧ y ≠ (0, 0) ∧
       related 6 (0, 0) y ∧ at_ CLASH_6 y = at_ CLASH_6 (0, 0).
Proof.
  apply (computeErrors_marks_both CLASH_6 6 {[ (0, 0); (0, 1); (5, 1) ]} (0, 0)).
  - by left.
  - apply (bool_decide_unpack _). by vm_compute.
  - by vm_compute.
  - set_solver.
Defined.
